(** * The cache client of go-pkg (package [cache]), embedded in Rocq.

    The package is a facade over a pooled Redis connection.  Every typed
    operation funnels through [Do], which borrows a connection from the
    pool, runs one command under the client's timeout, gives the
    connection back and wraps the outcome in a [Reply].

    Layout of the development:
    - Go values and errors as they travel through [interface{}] and [error];
    - the collaborating libraries (the pool and its connections, [strconv],
      the reply helpers of package [redis], the JSON codec);
    - the package itself: [ConnectRedis], [Do], the typed operations and
      the accessors of [Reply];
    - the properties of the package. *)

From Stdlib Require Import List String Ascii ZArith Bool Lia Permutation.
From Stdlib Require Strings.Byte.
Import Strings.Byte.
Import ListNotations.
Local Open Scope string_scope.
Local Open Scope Z_scope.

Set Implicit Arguments.
Set Warnings "-register-all".

(** ** State-passing computations

    A Go function that reads or updates something outside its arguments is
    a function from the state before the call to its results and the state
    after it. *)

Definition St (S A : Type) : Type := S -> A * S.

Definition ret {S A : Type} (a : A) : St S A := fun s => (a, s).

Definition bind {S A B : Type} (m : St S A) (k : A -> St S B) : St S B :=
  fun s => let (a, s') := m s in k a s'.

Definition get {S : Type} : St S S := fun s => (s, s).

Definition gets {S A : Type} (f : S -> A) : St S A := fun s => (f s, s).

Definition modify {S : Type} (f : S -> S) : St S unit := fun s => (tt, f s).

Declare Scope st_scope.
Delimit Scope st_scope with st.
Notation "x <- m ;; k" := (bind m (fun x => k))
  (at level 100, m at next level, right associativity) : st_scope.
Notation "' p <- m ;; k" := (bind m (fun x => let p := x in k))
  (at level 100, p pattern, m at next level, right associativity) : st_scope.
Notation "m ;;; k" := (bind m (fun _ => k))
  (at level 100, right associativity) : st_scope.
Local Open Scope st_scope.

(** ** Go values

    What an [interface{}] holds on its way into a command or out of a
    reply.  The reply helpers switch on the dynamic type, so [int] (an
    argument such as an expiry) and [int64] (an integer reply) are kept
    apart, as are [string] (a status reply) and [[]byte] (a bulk reply).
    [VChan] stands for the values that have no wire or JSON form. *)

Inductive Value : Type :=
| VNil
| VBool (b : bool)
| VInt (n : Z)
| VInt64 (n : Z)
| VString (s : string)
| VBytes (b : list byte)
| VError (msg : string)
| VSlice (vs : list Value)
| VStruct (fields : list (string * Value))
| VChan.

(** [time.Duration] is a 64-bit count of nanoseconds. *)
Definition Duration : Type := Z.

Definition wrap (bits : Z) (z : Z) : Z :=
  (z + 2 ^ (bits - 1)) mod 2 ^ bits - 2 ^ (bits - 1).

Definition in_range (bits : Z) (z : Z) : Prop :=
  - 2 ^ (bits - 1) <= z < 2 ^ (bits - 1).

Definition Second : Duration := 1000000000.

(** [strconv.IntSize]: the width of [int] on the 64-bit targets the
    package is built for. *)
Definition IntSize : Z := 64.

(** ** Go errors

    A non-nil [error] is one of the values below; [option GoError] is an
    [error] that may be nil.  [Errorf] keeps the format and the operands of
    a [fmt.Errorf] call, so that what an error carries can be read off. *)

Inductive StrconvErr : Type := ErrSyntax | ErrRange.

Inductive GoError : Type :=
| ErrNil
| RedisError (msg : string)
| NetError (msg : string) (isTimeout : bool)
| NumError (fn num : string) (e : StrconvErr)
| RangeError
| JsonError (msg : string)
| ScanError (msg : string)
| Errorf (format : string) (operands : list Operand)
with Operand : Type :=
| OpString (s : string)
| OpValue (v : Value)
| OpError (e : option GoError).

(** [Timeout()] of a [net.Error]; every other error is not a timeout. *)
Definition isTimeout (e : GoError) : bool :=
  match e with
  | NetError _ t => t
  | _ => false
  end.

(** ** The collaborators on the Go side

    The parsers of [strconv] (base 10, with the bit size as argument where
    Go takes one), the JSON codec of [encoding/json] and the struct helpers
    of package [redis] are used by the package and defined outside it.
    [json_Unmarshal b obj] and [ScanStruct src obj] give the content of the
    destination [obj] after the call, next to the error; [flatten obj] is
    the alternating field/value list that [Args.AddFlat] appends. *)

Class Library : Type := {
  float64 : Type;
  float64_zero : float64;
  ParseInt : string -> Z -> Z * option GoError;
  ParseBool : string -> bool * option GoError;
  ParseFloat : string -> Z -> float64 * option GoError;
  json_Marshal : Value -> list byte * option GoError;
  json_Unmarshal : list byte -> Value -> Value * option GoError;
  ScanStruct : list Value -> Value -> Value * option GoError;
  flatten : Value -> list Value
}.

(** ** The pool and its connections

    [redis.Pool] as [ConnectRedis] fills it in.  The [Dial] closure of the
    source captures the endpoint and the timeout; [Dialer] records the
    arguments it passes to [redis.Dial]. *)

Record Dialer : Type := {
  network : string; address : string; DialConnectTimeout : Duration
}.

Record Pool : Type := {
  MaxIdle : Z; MaxActive : Z; IdleTimeout : Duration; Wait : bool;
  Dial : Dialer
}.

(** What [pool.Get()] hands out: a live connection, or the [errorConn] that
    carries the failure of the dial and answers every call with it. *)
Inductive Conn : Type :=
| activeConn
| errorConn (e : GoError).

(** The far side: the state of the endpoint and of the network, how the
    pool obtains a live connection to it once the caller has a slot (an
    idle connection or a new dial, or the error that refuses one), and how
    a live connection answers a command run under a timeout (a result, an
    error reply, a transport error or a timeout). *)
Class Backend : Type := {
  Remote : Type;
  acquire : Pool -> Remote -> option GoError * Remote;
  roundTrip : Duration -> string -> list Value -> Remote ->
              (Value * option GoError) * Remote
}.

(** The calls made on the pool and on its connections, in order. *)
Inductive Event : Type :=
| EvGet (p : Pool)
| EvDo (t : Duration) (command : string) (args : list Value)
| EvClose.

(** The world of the client's pool: the far side, the connections taken
    from the pool and not closed yet, the calls made so far, and how many
    calls of Get found no free slot and had to wait. *)
Record World `{Backend} : Type := {
  remote : Remote;
  borrowed : nat;
  events : list Event;
  waits : nat
}.

(** A bounded pool has no free slot when as many connections are out as
    [MaxActive] allows; a [MaxActive] of zero sets no bound. *)
Definition saturated (p : Pool) (out : nat) : bool :=
  (0 <? MaxActive p) && (MaxActive p <=? Z.of_nat out).

Section PoolPrimitives.
Context `{Backend}.

Definition record (e : Event) : St World unit :=
  modify (fun w => {| remote := remote w; borrowed := borrowed w;
                      events := (events w ++ [e])%list;
                      waits := waits w |}).

(** Modelled from the spec: the blocking acquisition of the bounded pool.
    On a pool built with [Wait], a Get that finds every slot taken waits
    until a connection is closed.  The model has one caller, so nothing is
    closed while it waits: such a Get does not return.  The world counts
    it in [waits], and what is computed past it are the calls the caller
    would go on to make were a slot handed to it; a run that the program
    completes is one that leaves [waits] as it was.  A pool built without
    [Wait] never waits: whether it then hands out a connection or refuses
    one is for [acquire] to say. *)
Definition awaitSlot (p : Pool) : St World unit :=
  modify (fun w =>
    if Wait p && saturated p (borrowed w)
    then {| remote := remote w; borrowed := borrowed w;
            events := events w; waits := S (waits w) |}
    else w).

(** Modelled from the spec: [p.Get()] of the connection pool, which is
    not among the sources.  The pool is bounded: the caller first waits
    for a slot ([awaitSlot]).  A connection is then acquired on demand;
    when none can be had the caller still gets a connection value, one
    that answers with the error, and the slot is free again. *)
Definition pool_Get (p : Pool) : St World Conn :=
  record (EvGet p) ;;;
  awaitSlot p ;;;
  fun w =>
    match acquire p (remote w) with
    | (None, rem) =>
        (activeConn, {| remote := rem; borrowed := S (borrowed w);
                        events := events w; waits := waits w |})
    | (Some e, rem) =>
        (errorConn e, {| remote := rem; borrowed := borrowed w;
                         events := events w; waits := waits w |})
    end.

(** Modelled from the spec: [conn.DoWithTimeout(timeout, command,
    args...)] of a pooled connection, which is not among the sources: one
    command, bounded by the timeout, answered by the endpoint. *)
Definition conn_DoWithTimeout (c : Conn) (t : Duration) (command : string)
    (args : list Value) : St World (Value * option GoError) :=
  record (EvDo t command args) ;;;
  fun w =>
    match c with
    | errorConn e => ((VNil, Some e), w)
    | activeConn =>
        let (out, rem) := roundTrip t command args (remote w) in
        (out, {| remote := rem; borrowed := borrowed w;
                 events := events w; waits := waits w |})
    end.

(** Modelled from the spec: [conn.Close()] of a pooled connection, which
    is not among the sources: a live connection goes back to the pool. *)
Definition conn_Close (c : Conn) : St World unit :=
  record EvClose ;;;
  modify (fun w =>
    match c with
    | errorConn _ => w
    | activeConn => {| remote := remote w; borrowed := pred (borrowed w);
                       events := events w; waits := waits w |}
    end).

End PoolPrimitives.

(** ** Package [redis]: the reply helpers *)

Module redis.

Definition Args : Type := list Value.

Definition Add (a : Args) (v : Value) : Args := (a ++ [v])%list.

Definition AddFlat `{Library} (a : Args) (obj : Value) : Args :=
  (a ++ flatten obj)%list.

(** Modelled from the spec: the reply helpers of package [redis]
    ([redis.Int] and its siblings), which the accessors of [Reply]
    delegate to and which are not among the sources.  A helper given a
    stored error surfaces it at once and does not look at the result;
    otherwise it converts by the shape of the reply, the absent value
    being the not-found sentinel [ErrNil] and an error reply of the
    server being returned as the error. *)
Definition Int `{Library} (reply : Value) (err : option GoError)
    : Z * option GoError :=
  match err with
  | Some e => (0, Some e)
  | None =>
      match reply with
      | VInt64 n =>
          let x := wrap IntSize n in
          if x =? n then (x, None) else (0, Some RangeError)
      | VBytes b =>
          let (n, e) := ParseInt (string_of_list_byte b) 0 in
          (wrap IntSize n, e)
      | VNil => (0, Some ErrNil)
      | VError msg => (0, Some (RedisError msg))
      | _ => (0, Some (Errorf "redigo: unexpected type for Int, got type %T"
                              [OpValue reply]))
      end
  end.

(** Modelled from the spec: [redis.Int64], see [Int]. *)
Definition Int64 `{Library} (reply : Value) (err : option GoError)
    : Z * option GoError :=
  match err with
  | Some e => (0, Some e)
  | None =>
      match reply with
      | VInt64 n => (n, None)
      | VBytes b => ParseInt (string_of_list_byte b) 64
      | VNil => (0, Some ErrNil)
      | VError msg => (0, Some (RedisError msg))
      | _ => (0, Some (Errorf
                         "redigo: unexpected type for Int64, got type %T"
                         [OpValue reply]))
      end
  end.

(** Modelled from the spec: [redis.Float64], see [Int]. *)
Definition Float64 `{Library} (reply : Value) (err : option GoError)
    : float64 * option GoError :=
  match err with
  | Some e => (float64_zero, Some e)
  | None =>
      match reply with
      | VBytes b => ParseFloat (string_of_list_byte b) 64
      | VNil => (float64_zero, Some ErrNil)
      | VError msg => (float64_zero, Some (RedisError msg))
      | _ => (float64_zero,
              Some (Errorf
                      "redigo: unexpected type for Float64, got type %T"
                      [OpValue reply]))
      end
  end.

(** Modelled from the spec: [redis.String], see [Int]. *)
Definition String (reply : Value) (err : option GoError)
    : string * option GoError :=
  match err with
  | Some e => ("", Some e)
  | None =>
      match reply with
      | VBytes b => (string_of_list_byte b, None)
      | VString s => (s, None)
      | VNil => ("", Some ErrNil)
      | VError msg => ("", Some (RedisError msg))
      | _ => ("", Some (Errorf
                          "redigo: unexpected type for String, got type %T"
                          [OpValue reply]))
      end
  end.

(** Modelled from the spec: [redis.Bytes], see [Int]. *)
Definition Bytes (reply : Value) (err : option GoError)
    : list byte * option GoError :=
  match err with
  | Some e => ([], Some e)
  | None =>
      match reply with
      | VBytes b => (b, None)
      | VString s => (list_byte_of_string s, None)
      | VNil => ([], Some ErrNil)
      | VError msg => ([], Some (RedisError msg))
      | _ => ([], Some (Errorf
                          "redigo: unexpected type for Bytes, got type %T"
                          [OpValue reply]))
      end
  end.

(** Modelled from the spec: [redis.Bool], see [Int]. *)
Definition Bool `{Library} (reply : Value) (err : option GoError)
    : bool * option GoError :=
  match err with
  | Some e => (false, Some e)
  | None =>
      match reply with
      | VInt64 n => (negb (n =? 0), None)
      | VBytes b => ParseBool (string_of_list_byte b)
      | VNil => (false, Some ErrNil)
      | VError msg => (false, Some (RedisError msg))
      | _ => (false, Some (Errorf
                             "redigo: unexpected type for Bool, got type %T"
                             [OpValue reply]))
      end
  end.

(** Modelled from the spec: [redis.Values], see [Int]. *)
Definition Values (reply : Value) (err : option GoError)
    : list Value * option GoError :=
  match err with
  | Some e => ([], Some e)
  | None =>
      match reply with
      | VSlice vs => (vs, None)
      | VNil => ([], Some ErrNil)
      | VError msg => ([], Some (RedisError msg))
      | _ => ([], Some (Errorf
                          "redigo: unexpected type for Values, got type %T"
                          [OpValue reply]))
      end
  end.

(** The items of an array reply as strings: a nil item is the empty
    string, an item that is not a bulk string stops the conversion. *)
Fixpoint items (vs : list Value) : list string * option GoError :=
  match vs with
  | [] => ([], None)
  | v :: rest =>
      let item :=
        match v with
        | VNil => inl ""
        | VBytes b => inl (string_of_list_byte b)
        | VString s => inl s
        | _ => inr (Errorf
                 "redigo: unexpected element type for Strings, got type %T"
                 [OpValue v])
        end in
      match item with
      | inr e => ([], Some e)
      | inl s =>
          match items rest with
          | (ss, None) => (s :: ss, None)
          | (_, Some e) => ([], Some e)
          end
      end
  end.

(** Modelled from the spec: [redis.Strings], see [Int]. *)
Definition Strings (reply : Value) (err : option GoError)
    : list string * option GoError :=
  match err with
  | Some e => ([], Some e)
  | None =>
      match reply with
      | VSlice vs => items vs
      | VNil => ([], Some ErrNil)
      | VError msg => ([], Some (RedisError msg))
      | _ => ([], Some (Errorf
                          "redigo: unexpected type for Strings, got type %T"
                          [OpValue reply]))
      end
  end.

End redis.

(** ** Package [cache] *)

Module RedisConfig.
Record t : Type := {
  Connection : string; Password : string; Timeout : Z;
  MaxIdle : Z; MaxActive : Z
}.
End RedisConfig.

Definition ErrorFailedConnect : string :=
  "Failed to connect to redis %s. Error: %s".

(** [ErrorNil]: the error of a reply without data. *)
Definition ErrorNil : GoError := ErrNil.

(** [context.Context]; no function of the package looks at it. *)
Inductive Context : Type :=
| Background
| WithTimeout (parent : Context) (d : Duration)
| WithValue (parent : Context) (key val : string).

(** The accessors have the pointer receiver [rp *Reply]: each is a
    computation over the struct behind [rp].  [Unmarshal] and [Struct]
    also take the destination [obj] and give its content after the call. *)
Module Reply.

Record t : Type := { result : Value; error : option GoError }.

Definition Unmarshal `{Library} (obj : Value)
    : St t (Value * option GoError) :=
  rp <- get ;;
  let '(b, err) := redis.Bytes (result rp) (error rp) in
  match err with
  | Some e => ret (obj, Some e)
  | None =>
      let '(obj', err) := json_Unmarshal b obj in
      match err with
      | Some e => ret (obj', Some e)
      | None => ret (obj', None)
      end
  end.

Definition Error : St t (option GoError) :=
  rp <- get ;; ret (error rp).

Definition Float64 `{Library} : St t (float64 * option GoError) :=
  rp <- get ;; ret (redis.Float64 (result rp) (error rp)).

Definition Int64 `{Library} : St t (Z * option GoError) :=
  rp <- get ;; ret (redis.Int64 (result rp) (error rp)).

Definition Int `{Library} : St t (Z * option GoError) :=
  rp <- get ;; ret (redis.Int (result rp) (error rp)).

Definition Bool `{Library} : St t (bool * option GoError) :=
  rp <- get ;; ret (redis.Bool (result rp) (error rp)).

Definition Strings : St t (list string * option GoError) :=
  rp <- get ;; ret (redis.Strings (result rp) (error rp)).

Definition Bytes : St t (list byte * option GoError) :=
  rp <- get ;; ret (redis.Bytes (result rp) (error rp)).

Definition Struct `{Library} (obj : Value)
    : St t (Value * option GoError) :=
  rp <- get ;;
  let '(values, err) := redis.Values (result rp) (error rp) in
  match err with
  | Some e => ret (obj, Some e)
  | None =>
      let '(obj', err) := ScanStruct values obj in
      match err with
      | Some e => ret (obj', Some e)
      | None => ret (obj', None)
      end
  end.

Definition String : St t (string * option GoError) :=
  rp <- get ;; ret (redis.String (result rp) (error rp)).

(** The typed accessors, as data, and what they decode to. *)
Inductive Accessor : Type :=
| AString | AFloat64 | AInt64 | AInt | ABool | AStrings | ABytes
| AUnmarshal (obj : Value)
| AStruct (obj : Value).

Inductive Decoded `{Library} : Type :=
| DString (s : string)
| DFloat64 (f : float64)
| DInt64 (n : Z)
| DInt (n : Z)
| DBool (b : bool)
| DStrings (ss : list string)
| DBytes (b : list byte)
| DObject (obj : Value).

Definition typed `{Library} {A : Type} (tag : A -> Decoded)
    (m : St t (A * option GoError)) : St t (Decoded * option GoError) :=
  '(a, err) <- m ;; ret (tag a, err).

Definition access `{Library} (a : Accessor)
    : St t (Decoded * option GoError) :=
  match a with
  | AString => typed DString String
  | AFloat64 => typed DFloat64 Float64
  | AInt64 => typed DInt64 Int64
  | AInt => typed DInt Int
  | ABool => typed DBool Bool
  | AStrings => typed DStrings Strings
  | ABytes => typed DBytes Bytes
  | AUnmarshal obj => typed DObject (Unmarshal obj)
  | AStruct obj => typed DObject (Struct obj)
  end.

(** What a caller holds before decoding: the zero value of the target,
    or the destination as it was handed in. *)
Definition untouched `{Library} (a : Accessor) : Decoded :=
  match a with
  | AString => DString ""
  | AFloat64 => DFloat64 float64_zero
  | AInt64 => DInt64 0
  | AInt => DInt 0
  | ABool => DBool false
  | AStrings => DStrings []
  | ABytes => DBytes []
  | AUnmarshal obj => DObject obj
  | AStruct obj => DObject obj
  end.

(** [n] calls of the same accessor on the same reply, one after the
    other. *)
Fixpoint repeatedly `{Library} (n : nat) (a : Accessor)
    : St t (list (Decoded * option GoError)) :=
  match n with
  | O => ret []
  | S n' =>
      d <- access a ;;
      ds <- repeatedly n' a ;;
      ret (d :: ds)
  end.

End Reply.

(** [stringToInterface]: the key, then each value, appended one by one. *)
Definition stringToInterface (key : string) (values : list string)
    : list Value :=
  let args := ([] ++ [VString key])%list in
  fold_left (fun args v => (args ++ [VString v])%list) values args.

(** The methods have the pointer receiver [r *Redis]: each is a
    computation over the machine, that is the struct behind [r] and the
    world of the pool. *)
Module Redis.

Record t : Type := {
  connection : string; timeout : Duration; pool : Pool
}.

Section Methods.
Context `{Backend} `{Library}.

Record Machine : Type := { self : t; world : World }.

Definition inWorld {A : Type} (m : St World A) : St Machine A :=
  fun s => let (a, w) := m (world s) in (a, {| self := self s; world := w |}).

(** A call of an accessor on the reply at hand. *)
Definition decode {A : Type} (rp : Reply.t) (m : St Reply.t A) : A :=
  fst (m rp).

Definition getConnection : St Machine Conn :=
  r <- gets self ;; inWorld (pool_Get (pool r)).

Definition Do (ctx : Context) (command : string) (args : list Value)
    : St Machine Reply.t :=
  conn <- getConnection ;;
  r <- gets self ;;
  '(result, err) <-
    inWorld (conn_DoWithTimeout conn (timeout r) command args) ;;
  inWorld (conn_Close conn) ;;;
  ret {| Reply.result := result; Reply.error := err |}.

Definition Ping : St Machine (option GoError) :=
  rp <- Do Background "PING" [] ;;
  r <- gets self ;;
  let '(reply, err) := decode rp Reply.String in
  if match err with Some _ => true | None => false end
     || negb (reply =? "PONG")%string
  then ret (Some (Errorf ErrorFailedConnect
                    [OpString (connection r); OpError err]))
  else ret None.

Definition Exists (ctx : Context) (key : string)
    : St Machine (bool * option GoError) :=
  rp <- Do ctx "EXISTS" [VString key] ;;
  r <- gets self ;;
  let '(reply, err) := decode rp Reply.Int in
  match err with
  | Some _ => ret (false, Some (Errorf ErrorFailedConnect
                                  [OpString (connection r); OpError err]))
  | None => ret (reply =? 1, None)
  end.

Definition TTL (ctx : Context) (key : string) : St Machine Reply.t :=
  Do ctx "TTL" [VString key].

Definition Expire (ctx : Context) (key : string) (expire : Z)
    : St Machine Reply.t :=
  Do ctx "EXPIRE" [VString key; VInt expire].

Definition Incr (ctx : Context) (key : string) : St Machine Reply.t :=
  Do ctx "INCR" [VString key].

Definition IncrBy (ctx : Context) (key : string) (incr : Z)
    : St Machine Reply.t :=
  Do ctx "INCRBY" [VString key; VInt incr].

Definition Decr (ctx : Context) (key : string) : St Machine Reply.t :=
  Do ctx "DECR" [VString key].

Definition DecrBy (ctx : Context) (key : string) (decr : Z)
    : St Machine Reply.t :=
  Do ctx "DECRBY" [VString key; VInt decr].

Definition Get (ctx : Context) (key : string) : St Machine Reply.t :=
  Do ctx "GET" [VString key].

Definition Set_ (ctx : Context) (key : string) (value : Value)
    : St Machine Reply.t :=
  result <- Do ctx "SET" [VString key; value] ;;
  Expire ctx key (15 * 60) ;;;
  ret result.

Definition SetWithExpire (ctx : Context) (key : string) (expire : Z)
    (value : Value) : St Machine Reply.t :=
  result <- Do ctx "SET" [VString key; value] ;;
  Expire ctx key expire ;;;
  ret result.

Definition SetNoExpire (ctx : Context) (key : string) (value : Value)
    : St Machine Reply.t :=
  Do ctx "SET" [VString key; value].

Definition Del (ctx : Context) (key : string) : St Machine Reply.t :=
  Do ctx "DEL" [VString key].

Definition SetStruct (ctx : Context) (key : string) (value : Value)
    : St Machine Reply.t :=
  let '(jsonValue, err) := json_Marshal value in
  match err with
  | Some e => ret {| Reply.result := VNil; Reply.error := Some e |}
  | None => Set_ ctx key (VBytes jsonValue)
  end.

Definition SetStructWithExpire (ctx : Context) (key : string)
    (expire : Z) (value : Value) : St Machine Reply.t :=
  let '(jsonValue, err) := json_Marshal value in
  match err with
  | Some e => ret {| Reply.result := VNil; Reply.error := Some e |}
  | None => SetWithExpire ctx key expire (VBytes jsonValue)
  end.

Definition SetStructNoExpire (ctx : Context) (key : string)
    (value : Value) : St Machine Reply.t :=
  let '(jsonValue, err) := json_Marshal value in
  match err with
  | Some e => ret {| Reply.result := VNil; Reply.error := Some e |}
  | None => SetNoExpire ctx key (VBytes jsonValue)
  end.

Definition SAdd (ctx : Context) (key : string) (values : list string)
    : St Machine Reply.t :=
  let args := stringToInterface key values in
  result <- Do ctx "SADD" args ;;
  Expire ctx key (15 * 60) ;;;
  ret result.

Definition SAddWithExpire (ctx : Context) (key : string) (expire : Z)
    (values : list string) : St Machine Reply.t :=
  let args := stringToInterface key values in
  Do ctx "SADD" args.

Definition SAddNoExpire (ctx : Context) (key : string)
    (values : list string) : St Machine Reply.t :=
  let args := stringToInterface key values in
  Do ctx "SADD" args.

Definition SRem (ctx : Context) (key : string) (values : list string)
    : St Machine Reply.t :=
  let args := stringToInterface key values in
  Do ctx "SREM" args.

Definition SIsMember (ctx : Context) (key value : string)
    : St Machine Reply.t :=
  Do ctx "SISMEMBER" [VString key; VString value].

Definition SMembers (ctx : Context) (key : string) : St Machine Reply.t :=
  Do ctx "SMEMBERS" [VString key].

Definition SCard (ctx : Context) (key : string) : St Machine Reply.t :=
  Do ctx "SCARD" [VString key].

Definition HSet (ctx : Context) (name : string) (obj : Value)
    : St Machine Reply.t :=
  result <-
    Do ctx "HMSET" (redis.AddFlat (redis.Add [] (VString name)) obj) ;;
  Expire ctx name (15 * 60) ;;;
  ret result.

Definition HSetWithExpire (ctx : Context) (name : string) (expire : Z)
    (obj : Value) : St Machine Reply.t :=
  result <-
    Do ctx "HMSET" (redis.AddFlat (redis.Add [] (VString name)) obj) ;;
  Expire ctx name expire ;;;
  ret result.

Definition HSetNoExpire (ctx : Context) (name : string) (obj : Value)
    : St Machine Reply.t :=
  Do ctx "HMSET" (redis.AddFlat (redis.Add [] (VString name)) obj).

Definition HGet (ctx : Context) (name key : string) : St Machine Reply.t :=
  Do ctx "HGET" (redis.Add (redis.Add [] (VString name)) (VString key)).

Definition HGetAll (ctx : Context) (name : string) : St Machine Reply.t :=
  Do ctx "HGETALL" [VString name].

Definition HDel (ctx : Context) (name key : string) : St Machine Reply.t :=
  Do ctx "HDEL" (redis.Add (redis.Add [] (VString name)) (VString key)).

Definition ZAdd (ctx : Context) (key : string) (value : Value) (score : Z)
    : St Machine Reply.t :=
  Do ctx "ZADD" [VString key; VInt score; value].

Definition ZRem (ctx : Context) (key : string) (value : Value)
    : St Machine Reply.t :=
  Do ctx "ZREM" [VString key; value].

Definition ZRange (ctx : Context) (values : list Value)
    : St Machine Reply.t :=
  Do ctx "ZRANGE" values.

Definition ZInterStore (ctx : Context) (values : list Value)
    : St Machine Reply.t :=
  Do ctx "ZINTERSTORE" values.

(** The operations of the client, as data, and their results. *)
Inductive Call : Type :=
| CDo (ctx : Context) (command : string) (args : list Value)
| CPing
| CExists (ctx : Context) (key : string)
| CTTL (ctx : Context) (key : string)
| CExpire (ctx : Context) (key : string) (expire : Z)
| CIncr (ctx : Context) (key : string)
| CIncrBy (ctx : Context) (key : string) (incr : Z)
| CDecr (ctx : Context) (key : string)
| CDecrBy (ctx : Context) (key : string) (decr : Z)
| CGet (ctx : Context) (key : string)
| CSet (ctx : Context) (key : string) (value : Value)
| CSetWithExpire (ctx : Context) (key : string) (expire : Z) (value : Value)
| CSetNoExpire (ctx : Context) (key : string) (value : Value)
| CDel (ctx : Context) (key : string)
| CSetStruct (ctx : Context) (key : string) (value : Value)
| CSetStructWithExpire (ctx : Context) (key : string) (expire : Z)
    (value : Value)
| CSetStructNoExpire (ctx : Context) (key : string) (value : Value)
| CSAdd (ctx : Context) (key : string) (values : list string)
| CSAddWithExpire (ctx : Context) (key : string) (expire : Z)
    (values : list string)
| CSAddNoExpire (ctx : Context) (key : string) (values : list string)
| CSRem (ctx : Context) (key : string) (values : list string)
| CSIsMember (ctx : Context) (key value : string)
| CSMembers (ctx : Context) (key : string)
| CSCard (ctx : Context) (key : string)
| CHSet (ctx : Context) (name : string) (obj : Value)
| CHSetWithExpire (ctx : Context) (name : string) (expire : Z) (obj : Value)
| CHSetNoExpire (ctx : Context) (name : string) (obj : Value)
| CHGet (ctx : Context) (name key : string)
| CHGetAll (ctx : Context) (name : string)
| CHDel (ctx : Context) (name key : string)
| CZAdd (ctx : Context) (key : string) (value : Value) (score : Z)
| CZRem (ctx : Context) (key : string) (value : Value)
| CZRange (ctx : Context) (values : list Value)
| CZInterStore (ctx : Context) (values : list Value).

Inductive Outcome : Type :=
| OutReply (rp : Reply.t)
| OutError (err : option GoError)
| OutBool (b : bool) (err : option GoError).

Definition reply (m : St Machine Reply.t) : St Machine Outcome :=
  rp <- m ;; ret (OutReply rp).

Definition invoke (c : Call) : St Machine Outcome :=
  match c with
  | CDo ctx command args => reply (Do ctx command args)
  | CPing => err <- Ping ;; ret (OutError err)
  | CExists ctx key => '(b, err) <- Exists ctx key ;; ret (OutBool b err)
  | CTTL ctx key => reply (TTL ctx key)
  | CExpire ctx key expire => reply (Expire ctx key expire)
  | CIncr ctx key => reply (Incr ctx key)
  | CIncrBy ctx key incr => reply (IncrBy ctx key incr)
  | CDecr ctx key => reply (Decr ctx key)
  | CDecrBy ctx key decr => reply (DecrBy ctx key decr)
  | CGet ctx key => reply (Get ctx key)
  | CSet ctx key value => reply (Set_ ctx key value)
  | CSetWithExpire ctx key expire value =>
      reply (SetWithExpire ctx key expire value)
  | CSetNoExpire ctx key value => reply (SetNoExpire ctx key value)
  | CDel ctx key => reply (Del ctx key)
  | CSetStruct ctx key value => reply (SetStruct ctx key value)
  | CSetStructWithExpire ctx key expire value =>
      reply (SetStructWithExpire ctx key expire value)
  | CSetStructNoExpire ctx key value =>
      reply (SetStructNoExpire ctx key value)
  | CSAdd ctx key values => reply (SAdd ctx key values)
  | CSAddWithExpire ctx key expire values =>
      reply (SAddWithExpire ctx key expire values)
  | CSAddNoExpire ctx key values => reply (SAddNoExpire ctx key values)
  | CSRem ctx key values => reply (SRem ctx key values)
  | CSIsMember ctx key value => reply (SIsMember ctx key value)
  | CSMembers ctx key => reply (SMembers ctx key)
  | CSCard ctx key => reply (SCard ctx key)
  | CHSet ctx name obj => reply (HSet ctx name obj)
  | CHSetWithExpire ctx name expire obj =>
      reply (HSetWithExpire ctx name expire obj)
  | CHSetNoExpire ctx name obj => reply (HSetNoExpire ctx name obj)
  | CHGet ctx name key => reply (HGet ctx name key)
  | CHGetAll ctx name => reply (HGetAll ctx name)
  | CHDel ctx name key => reply (HDel ctx name key)
  | CZAdd ctx key value score => reply (ZAdd ctx key value score)
  | CZRem ctx key value => reply (ZRem ctx key value)
  | CZRange ctx values => reply (ZRange ctx values)
  | CZInterStore ctx values => reply (ZInterStore ctx values)
  end.

(** A caller's use of the client: operations one after the other. *)
Fixpoint run (calls : list Call) : St Machine (list Outcome) :=
  match calls with
  | [] => ret []
  | c :: rest =>
      o <- invoke c ;;
      os <- run rest ;;
      ret (o :: os)
  end.

End Methods.

End Redis.

(** [ConnectRedis] builds the pool, runs the health check through a
    connection it takes from the pool, and returns the client or the
    error. *)
Definition ConnectRedis `{Backend} (config : RedisConfig.t)
    : St World (option Redis.t * option GoError) :=
  let timeout := wrap 64 (wrap 64 (RedisConfig.Timeout config) * Second) in
  let pool :=
    {| MaxIdle := RedisConfig.MaxIdle config;
       MaxActive := RedisConfig.MaxActive config;
       IdleTimeout := timeout;
       Wait := true;
       Dial := {| network := "tcp";
                  address := RedisConfig.Connection config;
                  DialConnectTimeout := timeout |} |} in
  conn <- pool_Get pool ;;
  '(_, err) <- conn_DoWithTimeout conn timeout "PING" [] ;;
  match err with
  | Some _ =>
      ret (None, Some (Errorf ErrorFailedConnect
                         [OpString (RedisConfig.Connection config);
                          OpError err]))
  | None =>
      ret (Some {| Redis.connection := RedisConfig.Connection config;
                   Redis.timeout := timeout;
                   Redis.pool := pool |}, None)
  end.

(** ** A small endpoint to run the package on

    An in-memory endpoint that understands a few commands, with switches for
    a refused dial, a stalled connection, a failing [EXPIRE] and the answer
    to [PING]; and stand-ins for the Go-side collaborators that cover
    decimal integers, booleans, null and flat structs.  They serve to run
    the package on concrete inputs. *)

Module Sim.

Record Endpoint : Type := {
  store : list (string * list byte);
  pingReply : Value;
  refuses : option GoError;
  stalls : bool;
  expireFails : option GoError
}.

Fixpoint lookup (k : string) (kvs : list (string * list byte))
    : option (list byte) :=
  match kvs with
  | [] => None
  | (k', b) :: rest => if (k =? k')%string then Some b else lookup k rest
  end.

Definition drop (k : string) (kvs : list (string * list byte))
    : list (string * list byte) :=
  filter (fun kv => negb (k =? fst kv)%string) kvs.

Definition with_store (ep : Endpoint) (kvs : list (string * list byte))
    : Endpoint :=
  {| store := kvs; pingReply := pingReply ep; refuses := refuses ep;
     stalls := stalls ep; expireFails := expireFails ep |}.

Definition present (k : string) (ep : Endpoint) : Z :=
  match lookup k (store ep) with Some _ => 1 | None => 0 end.

Definition unknown (command : string) : GoError :=
  RedisError ("ERR unknown command '" ++ command ++ "'").

Definition answer (t : Duration) (command : string) (args : list Value)
    (ep : Endpoint) : (Value * option GoError) * Endpoint :=
  if stalls ep then ((VNil, Some (NetError "i/o timeout" true)), ep)
  else if (command =? "PING")%string then ((pingReply ep, None), ep)
  else
    match args with
    | [VString k] =>
        if (command =? "GET")%string then
          match lookup k (store ep) with
          | Some b => ((VBytes b, None), ep)
          | None => ((VNil, None), ep)
          end
        else if (command =? "EXISTS")%string then
          ((VInt64 (present k ep), None), ep)
        else if (command =? "DEL")%string then
          ((VInt64 (present k ep), None), with_store ep (drop k (store ep)))
        else ((VNil, Some (unknown command)), ep)
    | [VString k; VBytes b] =>
        if (command =? "SET")%string then
          ((VString "OK", None), with_store ep ((k, b) :: drop k (store ep)))
        else ((VNil, Some (unknown command)), ep)
    | [VString k; VString v] =>
        if (command =? "SET")%string then
          ((VString "OK", None),
           with_store ep ((k, list_byte_of_string v) :: drop k (store ep)))
        else ((VNil, Some (unknown command)), ep)
    | [VString k; VInt n] =>
        if (command =? "EXPIRE")%string then
          match expireFails ep with
          | Some e => ((VNil, Some e), ep)
          | None => ((VInt64 (present k ep), None), ep)
          end
        else ((VNil, Some (unknown command)), ep)
    | _ => ((VNil, Some (unknown command)), ep)
    end.

#[export] Instance backend : Backend := {|
  Remote := Endpoint;
  acquire := fun _ ep => (refuses ep, ep);
  roundTrip := answer
|}.

(** Stand-ins for the parsers of [strconv]: an optional sign and decimal
    digits, clamped to the bit size; the spellings of true and false. *)
Definition digit (c : ascii) : option Z :=
  let n := Z.of_N (N_of_ascii c) in
  if (48 <=? n) && (n <=? 57) then Some (n - 48) else None.

Fixpoint digits (s : string) (acc : Z) : option Z :=
  match s with
  | EmptyString => Some acc
  | String c s' =>
      match digit c with
      | Some d => digits s' (10 * acc + d)
      | None => None
      end
  end.

Definition parseInt (s : string) (bitSize : Z) : Z * option GoError :=
  let bits := if bitSize =? 0 then IntSize else bitSize in
  let cutoff := 2 ^ (bits - 1) in
  let '(neg, body) :=
    match s with
    | String "+" r => (false, r)
    | String "-" r => (true, r)
    | _ => (false, s)
    end in
  match body with
  | EmptyString => (0, Some (NumError "ParseInt" s ErrSyntax))
  | _ =>
      match digits body 0 with
      | None => (0, Some (NumError "ParseInt" s ErrSyntax))
      | Some un =>
          if negb neg && (cutoff <=? un)
          then (cutoff - 1, Some (NumError "ParseInt" s ErrRange))
          else if neg && (cutoff <? un)
          then (- cutoff, Some (NumError "ParseInt" s ErrRange))
          else ((if neg then - un else un), None)
      end
  end.

Definition parseBool (s : string) : bool * option GoError :=
  if existsb (String.eqb s) ["1"; "t"; "T"; "true"; "TRUE"; "True"]
  then (true, None)
  else if existsb (String.eqb s) ["0"; "f"; "F"; "false"; "FALSE"; "False"]
  then (false, None)
  else (false, Some (NumError "ParseBool" s ErrSyntax)).

Definition encode (v : Value) : list byte * option GoError :=
  match v with
  | VNil => (list_byte_of_string "null", None)
  | VBool true => (list_byte_of_string "true", None)
  | VBool false => (list_byte_of_string "false", None)
  | VChan => ([], Some (JsonError "json: unsupported type: chan int"))
  | _ => ([], Some (JsonError "json: value outside the stand-in codec"))
  end.

Definition decode_json (b : list byte) (obj : Value)
    : Value * option GoError :=
  let s := string_of_list_byte b in
  if (s =? "null")%string then (obj, None)
  else if (s =? "true")%string then (VBool true, None)
  else if (s =? "false")%string then (VBool false, None)
  else (obj, Some (JsonError "json: input outside the stand-in codec")).

Fixpoint pairs (vs : list Value) : option (list (string * Value)) :=
  match vs with
  | [] => Some []
  | VBytes k :: v :: rest =>
      match pairs rest with
      | Some fs => Some ((string_of_list_byte k, v) :: fs)
      | None => None
      end
  | _ => None
  end.

Definition scan (src : list Value) (obj : Value) : Value * option GoError :=
  match pairs src with
  | Some fs => (VStruct fs, None)
  | None => (obj, Some (ScanError "redigo.ScanStruct: bad field list"))
  end.

Definition flat (obj : Value) : list Value :=
  match obj with
  | VStruct fs => flat_map (fun f => [VString (fst f); snd f]) fs
  | _ => []
  end.

#[export] Instance library : Library := {|
  float64 := Z;
  float64_zero := 0;
  ParseInt := parseInt;
  ParseBool := parseBool;
  ParseFloat := parseInt;
  json_Marshal := encode;
  json_Unmarshal := decode_json;
  ScanStruct := scan;
  flatten := flat
|}.

Definition endpoint : Endpoint := {|
  store := []; pingReply := VString "PONG"; refuses := None;
  stalls := false; expireFails := None
|}.

Definition fresh (ep : Endpoint) : World :=
  {| remote := ep; borrowed := 0; events := []; waits := 0 |}.

Definition config : RedisConfig.t := {|
  RedisConfig.Connection := "localhost:6379";
  RedisConfig.Password := "";
  RedisConfig.Timeout := 5;
  RedisConfig.MaxIdle := 2;
  RedisConfig.MaxActive := 10
|}.

(** The configuration with another bound on the connections. *)
Definition with_MaxActive (c : RedisConfig.t) (n : Z) : RedisConfig.t := {|
  RedisConfig.Connection := RedisConfig.Connection c;
  RedisConfig.Password := RedisConfig.Password c;
  RedisConfig.Timeout := RedisConfig.Timeout c;
  RedisConfig.MaxIdle := RedisConfig.MaxIdle c;
  RedisConfig.MaxActive := n
|}.

(** The client that [ConnectRedis] builds from [config]. *)
Definition client : Redis.t := {|
  Redis.connection := "localhost:6379";
  Redis.timeout := 5000000000;
  Redis.pool := {| MaxIdle := 2; MaxActive := 10;
                   IdleTimeout := 5000000000; Wait := true;
                   Dial := {| network := "tcp";
                              address := "localhost:6379";
                              DialConnectTimeout := 5000000000 |} |}
|}.

Definition machine (ep : Endpoint) : Redis.Machine :=
  {| Redis.self := client; Redis.world := fresh ep |}.

(** An endpoint that cannot be dialled. *)
Definition unreachable : Endpoint := {|
  store := []; pingReply := VString "PONG";
  refuses := Some (NetError "dial tcp: connection refused" false);
  stalls := false; expireFails := None
|}.

(** An endpoint that never answers within the timeout. *)
Definition stalled : Endpoint := {|
  store := []; pingReply := VString "PONG"; refuses := None;
  stalls := true; expireFails := None
|}.

(** An endpoint that answers PING with a status other than PONG. *)
Definition impostor : Endpoint := {|
  store := []; pingReply := VString "OK"; refuses := None;
  stalls := false; expireFails := None
|}.

(** An endpoint on which EXPIRE fails. *)
Definition frozen : Endpoint := {|
  store := []; pingReply := VString "PONG"; refuses := None;
  stalls := false;
  expireFails := Some (RedisError "ERR value is not an integer or out of range")
|}.

(** The machine after a caller's use of the client on a fresh world. *)
Definition after (calls : list Redis.Call) (ep : Endpoint) : Redis.Machine :=
  snd (Redis.run calls (machine ep)).

End Sim.


(** ** Vocabulary of the statements *)

Section Vocabulary.
Context `{Backend} `{Library}.
Import Redis.

(** What the connection handed out by the pool of [r] answers to a
    command, and the world this leaves. *)
Definition answered (r : Redis.t) (command : string) (args : list Value)
    (w : World) : (Value * option GoError) * World :=
  let (conn, w1) := pool_Get (pool r) w in
  conn_DoWithTimeout conn (timeout r) command args w1.

(** The calls that one [Do] of [r] makes on the pool and on the
    connection. *)
Definition exchange (r : Redis.t) (command : string) (args : list Value)
    : list Event :=
  [EvGet (pool r); EvDo (timeout r) command args; EvClose].

(** The calls made between two machines, when the second continues the
    first. *)
Definition since (m m' : Machine) (evs : list Event) : Prop :=
  events (world m') = (events (world m) ++ evs)%list.

(** Every pool and connection call is made with the pool and the timeout
    of [r]. *)
Definition made_by (r : Redis.t) (e : Event) : Prop :=
  match e with
  | EvGet p => p = pool r
  | EvDo t _ _ => t = timeout r
  | EvClose => True
  end.

(** A computation that leaves the struct behind the receiver as it was and
    makes all its calls with the receiver's pool and timeout. *)
Definition faithful {A : Type} (c : St Machine A) : Prop :=
  forall m,
    self (snd (c m)) = self m
    /\ exists evs, since m (snd (c m)) evs /\ Forall (made_by (self m)) evs.

(** The struct that [ConnectRedis] fills in from a configuration. *)
Definition constructed (config : RedisConfig.t) : Redis.t :=
  let timeout := wrap 64 (wrap 64 (RedisConfig.Timeout config) * Second) in
  {| connection := RedisConfig.Connection config;
     timeout := timeout;
     pool := {| MaxIdle := RedisConfig.MaxIdle config;
                MaxActive := RedisConfig.MaxActive config;
                IdleTimeout := timeout;
                Wait := true;
                Dial := {| network := "tcp";
                           address := RedisConfig.Connection config;
                           DialConnectTimeout := timeout |} |} |}.


End Vocabulary.

(** ** Further vocabulary for the cache client *)

Section CacheVocabulary.
Context `{Backend} `{Library}.
Import Redis.

(** A trace made of complete exchanges of [r]: each connection taken from
    the pool runs one command and is closed before the next is taken. *)
Inductive exchanges (r : Redis.t) : list Event -> Prop :=
| exchanges_nil : exchanges r []
| exchanges_more (command : string) (args : list Value) (rest : list Event) :
    exchanges r rest -> exchanges r (exchange r command args ++ rest)%list.

(** A computation that, started with a free slot in the pool, leaves the
    receiver's struct and the number of borrowed connections as they were,
    never has to wait for a slot, and whose calls form complete
    exchanges. *)
Definition tidy {A : Type} (c : St Machine A) : Prop :=
  forall m,
    saturated (pool (self m)) (borrowed (world m)) = false ->
    self (snd (c m)) = self m
    /\ borrowed (world (snd (c m))) = borrowed (world m)
    /\ waits (world (snd (c m))) = waits (world m)
    /\ exists evs, since m (snd (c m)) evs /\ exchanges (self m) evs.

(** The traces an operation can leave: nothing, one exchange, or one
    exchange followed by an EXPIRE. *)
Definition at_most_command_and_expire (r : Redis.t) (evs : list Event)
    : Prop :=
  evs = []
  \/ (exists command args, evs = exchange r command args)
  \/ (exists command args key seconds,
        evs = (exchange r command args
               ++ exchange r "EXPIRE" [VString key; VInt seconds])%list).

(** The same operation under another context. *)
Definition with_context (ctx : Context) (c : Call) : Call :=
  match c with
  | CDo _ command args => CDo ctx command args
  | CPing => CPing
  | CExists _ key => CExists ctx key
  | CTTL _ key => CTTL ctx key
  | CExpire _ key expire => CExpire ctx key expire
  | CIncr _ key => CIncr ctx key
  | CIncrBy _ key incr => CIncrBy ctx key incr
  | CDecr _ key => CDecr ctx key
  | CDecrBy _ key decr => CDecrBy ctx key decr
  | CGet _ key => CGet ctx key
  | CSet _ key value => CSet ctx key value
  | CSetWithExpire _ key expire value => CSetWithExpire ctx key expire value
  | CSetNoExpire _ key value => CSetNoExpire ctx key value
  | CDel _ key => CDel ctx key
  | CSetStruct _ key value => CSetStruct ctx key value
  | CSetStructWithExpire _ key expire value =>
      CSetStructWithExpire ctx key expire value
  | CSetStructNoExpire _ key value => CSetStructNoExpire ctx key value
  | CSAdd _ key values => CSAdd ctx key values
  | CSAddWithExpire _ key expire values => CSAddWithExpire ctx key expire values
  | CSAddNoExpire _ key values => CSAddNoExpire ctx key values
  | CSRem _ key values => CSRem ctx key values
  | CSIsMember _ key value => CSIsMember ctx key value
  | CSMembers _ key => CSMembers ctx key
  | CSCard _ key => CSCard ctx key
  | CHSet _ name obj => CHSet ctx name obj
  | CHSetWithExpire _ name expire obj => CHSetWithExpire ctx name expire obj
  | CHSetNoExpire _ name obj => CHSetNoExpire ctx name obj
  | CHGet _ name key => CHGet ctx name key
  | CHGetAll _ name => CHGetAll ctx name
  | CHDel _ name key => CHDel ctx name key
  | CZAdd _ key value score => CZAdd ctx key value score
  | CZRem _ key value => CZRem ctx key value
  | CZRange _ values => CZRange ctx values
  | CZInterStore _ values => CZInterStore ctx values
  end.

End CacheVocabulary.

(** The same configuration under another password. *)
Definition with_password (config : RedisConfig.t) (password : string)
    : RedisConfig.t :=
  {| RedisConfig.Connection := RedisConfig.Connection config;
     RedisConfig.Password := password;
     RedisConfig.Timeout := RedisConfig.Timeout config;
     RedisConfig.MaxIdle := RedisConfig.MaxIdle config;
     RedisConfig.MaxActive := RedisConfig.MaxActive config |}.

(** ** Go maps

    A Go map with string keys as the list of its assignments, the latest
    first: a lookup finds the latest assignment of a key, and the keys are
    counted once.  The order in which [range] visits the keys is not fixed
    by the language; the programs below take it from [order]. *)

Module gomap.

Section Maps.
Variable V : Type.

Definition t : Type := list (string * V).

Fixpoint lookup (k : string) (m : t) : option V :=
  match m with
  | [] => None
  | (k', v) :: rest => if (k =? k')%string then Some v else lookup k rest
  end.

(** [m[k] = v] *)
Definition store (k : string) (v : V) (m : t) : t := (k, v) :: m.

Definition keys (m : t) : list string := nodup string_dec (map fst m).

(** [len(m)] *)
Definition len (m : t) : nat := List.length (keys m).

End Maps.

End gomap.

(** A result that is either a value or an error, for the library calls
    that return one or the other. *)
Inductive result (A : Type) : Type :=
| Ok (a : A)
| Failed (e : GoError).

Arguments Ok {A} a.
Arguments Failed {A} e.

(** ** Package [curl]: the HTTP request client *)

(** What the package takes from [strings], [net/url], [net/http],
    [mime/multipart] and [io]: the case conversions, the order in which
    [range] visits the keys of a map, URLs and their queries, requests and
    responses, the HTTP client with the network and the files behind it,
    and the multipart writer that fills the form buffer. *)
Class HttpLib : Type := {
  ToUpper : string -> string;
  ToLower : string -> string;
  order : list string -> list string;
  order_visits_each_once : forall ks, Permutation (order ks) ks;
  URL : Type;
  url_Parse : string -> result URL;
  URL_Query : URL -> gomap.t (list string);
  URL_setRawQuery : URL -> string -> URL;
  URL_String : URL -> string;
  Values_Encode : gomap.t (list string) -> string;
  Outside : Type;
  File : Type;
  Writer : Type;
  NewWriter : Writer;
  CreateFormFile : Writer -> string -> string -> result Writer;
  CreateFormField : Writer -> string -> result Writer;
  copyFile : Writer -> File -> Outside -> result Writer * Outside;
  copyString : Writer -> string -> result Writer;
  FormDataContentType : Writer -> string;
  Writer_Close : Writer -> Writer;
  Buffer : Writer -> list byte;
  File_Close : File -> Outside -> Outside;
  Request : Type;
  http_NewRequest : string -> string -> option (list byte) -> result Request;
  Request_WithContext : Request -> Context -> Request;
  Header_Set : Request -> string -> string -> Request;
  Response : Type;
  StatusCode : Response -> Z;
  client_Do : Request -> Outside -> result Response * Outside;
  ReadAll : Response -> Outside -> result (list byte) * Outside;
  Body_Close : Response -> Outside -> Outside
}.

Module curl.

Definition MethodGet : string := "GET".
Definition MethodHead : string := "HEAD".
Definition MethodPost : string := "POST".
Definition MethodPut : string := "PUT".
Definition MethodPatch : string := "PATCH".
Definition MethodDelete : string := "DELETE".

(** [url.Values] *)
Definition Values : Type := gomap.t (list string).

(** [v.Get(key)]: the first value of the key, or the empty string. *)
Definition Values_Get (v : Values) (key : string) : string :=
  match gomap.lookup key v with
  | Some (first :: _) => first
  | _ => ""
  end.

(** [v.Add(key, value)] *)
Definition Values_Add (v : Values) (key value : string) : Values :=
  let old := match gomap.lookup key v with Some vs => vs | None => [] end in
  gomap.store key (old ++ [value])%list v.

Definition isValidMethod (method : string) : bool :=
  let validMethod :=
    [MethodGet; MethodHead; MethodPost; MethodPut; MethodPatch;
     MethodDelete] in
  existsb (fun v => (v =? method)%string) validMethod.

Section Requests.
Context `{HttpLib}.

Record httpFile : Type := { fileName : string; fileContent : File }.

Record HttpRequest : Type := {
  method : string;
  url : string;
  headers : gomap.t string;
  params : Values;
  files : gomap.t httpFile;
  body : list byte;
  multipart : bool
}.

Record HttpResponse : Type := {
  response : Response;
  contents : list byte
}.

(** The world of a request: the network and the files, the files closed
    and the requests handed to the client, in order. *)
Record HttpWorld : Type := {
  outside : Outside;
  closed : list File;
  sent : list Request
}.

(** The methods have the pointer receiver [rq *HttpRequest]. *)
Record Machine : Type := { self : HttpRequest; world : HttpWorld }.

Definition NewHttpRequest (method uri : string) : HttpRequest :=
  {| method := ToUpper method;
     url := uri;
     headers := [];
     params := [];
     files := [];
     body := [];
     multipart := false |}.

Definition update (f : HttpRequest -> HttpRequest) : St Machine unit :=
  modify (fun m => {| self := f (self m); world := world m |}).

Definition outside_step {A : Type} (f : Outside -> A * Outside)
    : St Machine A :=
  fun m =>
    let (a, o) := f (outside (world m)) in
    (a, {| self := self m;
           world := {| outside := o; closed := closed (world m);
                       sent := sent (world m) |} |}).

Definition SetHeader (key value : string) : St Machine unit :=
  update (fun rq =>
    {| method := method rq; url := url rq;
       headers := gomap.store key value (headers rq);
       params := params rq; files := files rq; body := body rq;
       multipart := multipart rq |}) ;;;
  let key := ToLower key in
  if (key =? "content-type")%string && String.prefix "multipart" value then
    update (fun rq =>
      {| method := method rq; url := url rq; headers := headers rq;
         params := params rq; files := files rq; body := body rq;
         multipart := true |})
  else if (key =? "content-type")%string then
    update (fun rq =>
      {| method := method rq; url := url rq; headers := headers rq;
         params := params rq; files := files rq; body := body rq;
         multipart := false |})
  else ret tt.

Definition SetBody (b : list byte) : St Machine unit :=
  update (fun rq =>
    {| method := method rq; url := url rq; headers := headers rq;
       params := params rq; files := files rq; body := b;
       multipart := multipart rq |}).

Definition SetParam (p : Values) : St Machine unit :=
  update (fun rq =>
    {| method := method rq; url := url rq; headers := headers rq;
       params := p; files := files rq; body := body rq;
       multipart := multipart rq |}).

Definition AddParam (key value : string) : St Machine unit :=
  update (fun rq =>
    {| method := method rq; url := url rq; headers := headers rq;
       params := Values_Add (params rq) key value; files := files rq;
       body := body rq; multipart := multipart rq |}).

Definition AddFile (key name : string) (value : File) : St Machine unit :=
  update (fun rq =>
    {| method := method rq; url := url rq; headers := headers rq;
       params := params rq;
       files := gomap.store key
                  {| fileName := name; fileContent := value |} (files rq);
       body := body rq; multipart := multipart rq |}).

Definition setQueryParams (u : URL) : St Machine (result Request) :=
  rq <- gets self ;;
  let u :=
    if negb (gomap.len (params rq) =? 0)%nat then
      let query :=
        fold_left
          (fun query k => Values_Add query k (Values_Get (params rq) k))
          (order (gomap.keys (params rq))) (URL_Query u) in
      URL_setRawQuery u (Values_Encode query)
    else u in
  ret (http_NewRequest (method rq) (URL_String u) None).

(** The first loop of [setImageParams]: every file visited is first
    registered for closing, then written as a form file.  The result
    carries the files registered so far, the latest first. *)
Fixpoint writeFiles (fs : gomap.t httpFile) (ks : list string)
    (writer : Writer) (deferred : list File)
    : St Machine (result Writer * list File) :=
  match ks with
  | [] => ret (Ok writer, deferred)
  | key :: rest =>
      match gomap.lookup key fs with
      | None => writeFiles fs rest writer deferred
      | Some value =>
          let deferred := fileContent value :: deferred in
          match CreateFormFile writer key (fileName value) with
          | Failed err =>
              ret (Failed
                     (Errorf "Failed to Create Form File. Error: %s"
                        [OpError (Some err)]), deferred)
          | Ok fw =>
              copied <- outside_step (copyFile fw (fileContent value)) ;;
              match copied with
              | Failed _ =>
                  ret (Failed (Errorf "Failed to copy file to writer" []),
                       deferred)
              | Ok writer => writeFiles fs rest writer deferred
              end
          end
      end
  end.

(** The second loop of [setImageParams]: one form field for each
    parameter, holding its first value. *)
Fixpoint writeFields (p : Values) (ks : list string) (writer : Writer)
    : result Writer :=
  match ks with
  | [] => Ok writer
  | key :: rest =>
      match CreateFormField writer key with
      | Failed err =>
          Failed (Errorf "Failed to Create Form Field. Error: %s"
                    [OpError (Some err)])
      | Ok fw =>
          match copyString fw (Values_Get p key) with
          | Failed _ => Failed (Errorf "Failed to copy field to writer" [])
          | Ok writer => writeFields p rest writer
          end
      end
  end.

(** The deferred calls run when the function returns, the latest first. *)
Fixpoint runDeferred (deferred : list File) : St Machine unit :=
  match deferred with
  | [] => ret tt
  | f :: rest =>
      fun m =>
        runDeferred rest
          {| self := self m;
             world := {| outside := File_Close f (outside (world m));
                         closed := (closed (world m) ++ [f])%list;
                         sent := sent (world m) |} |}
  end.

Definition setImageParams : St Machine (result (list byte)) :=
  rq <- gets self ;;
  let writer := NewWriter in
  '(written, deferred) <-
    writeFiles (files rq) (order (gomap.keys (files rq))) writer [] ;;
  match written with
  | Failed err => runDeferred deferred ;;; ret (Failed err)
  | Ok writer =>
      match writeFields (params rq) (order (gomap.keys (params rq))) writer with
      | Failed err => runDeferred deferred ;;; ret (Failed err)
      | Ok writer =>
          SetHeader "Content-Type" (FormDataContentType writer) ;;;
          let writer := Writer_Close writer in
          runDeferred deferred ;;;
          ret (Ok (Buffer writer))
      end
  end.

Definition setBodyParams (u : URL) : St Machine (result Request) :=
  rq <- gets self ;;
  built <-
    (if negb (gomap.len (files rq) =? 0)%nat || multipart rq then
       setImageParams
     else if negb (List.length (body rq) =? 0)%nat then
       ret (Ok (body rq))
     else
       let form := list_byte_of_string (Values_Encode (params rq)) in
       SetHeader "Content-Type" "application/x-www-form-urlencoded" ;;;
       ret (Ok form)) ;;
  match built with
  | Failed err => ret (Failed err)
  | Ok form =>
      rq <- gets self ;;
      ret (http_NewRequest (method rq) (URL_String u) (Some form))
  end.

(** [rq.client.Do(request)] *)
Definition client_send (request : Request) : St Machine (result Response) :=
  fun m =>
    let (r, o) := client_Do request (outside (world m)) in
    (r, {| self := self m;
           world := {| outside := o; closed := closed (world m);
                       sent := (sent (world m) ++ [request])%list |} |}).

Definition Do (ctx : Context) (timeout : Z)
    : St Machine (option HttpResponse * option GoError) :=
  rq <- gets self ;;
  match url_Parse (url rq) with
  | Failed err => ret (None, Some err)
  | Ok u =>
      let err : option GoError := None in
      if negb (isValidMethod (method rq)) then ret (None, err)
      else
        built <-
          (if (method rq =? MethodGet)%string then setQueryParams u
           else setBodyParams u) ;;
        match built with
        | Failed err => ret (None, Some err)
        | Ok request =>
            let ctx :=
              if 0 <? timeout
              then WithTimeout ctx (wrap 64 (wrap 64 timeout * Second))
              else ctx in
            let request := Request_WithContext request ctx in
            rq <- gets self ;;
            let request :=
              fold_left
                (fun request key =>
                   match gomap.lookup key (headers rq) with
                   | Some value => Header_Set request key value
                   | None => request
                   end)
                (order (gomap.keys (headers rq))) request in
            answer <- client_send request ;;
            match answer with
            | Failed err => ret (None, Some err)
            | Ok response =>
                read <- outside_step (ReadAll response) ;;
                outside_step (fun o => (tt, Body_Close response o)) ;;;
                match read with
                | Failed err => ret (None, Some err)
                | Ok contents =>
                    ret (Some {| response := response;
                                 contents := contents |}, None)
                end
            end
        end
  end.

Definition Is (rs : HttpResponse) (statusCode : Z) : bool :=
  if StatusCode (response rs) =? statusCode then true else false.

Definition IsSuccess (rs : HttpResponse) : bool :=
  if (StatusCode (response rs) =? 200) || (StatusCode (response rs) =? 201)
     || (StatusCode (response rs) =? 204)
  then true else false.

Definition GetStatusCode (rs : HttpResponse) : Z := StatusCode (response rs).

Definition GetBody (rs : HttpResponse) : list byte := contents rs.

End Requests.

End curl.

(** ** Vocabulary for the HTTP request client *)

Section CurlVocabulary.
Context `{HttpLib}.
Import curl.

(** [SetHeader] called for each key and value in turn. *)
Fixpoint setHeaders (calls : list (string * string)) : St Machine unit :=
  match calls with
  | [] => ret tt
  | (key, value) :: rest => SetHeader key value ;;; setHeaders rest
  end.

(** A call of [SetHeader] that names the content type, up to case. *)
Definition names_content_type (call : string * string) : bool :=
  (ToLower (fst call) =? "content-type")%string.

(** The files attached under the keys [ks], in that order. *)
Definition attached (fs : gomap.t httpFile) (ks : list string) : list File :=
  flat_map
    (fun k =>
       match gomap.lookup k fs with
       | Some value => [fileContent value]
       | None => []
       end) ks.

(** The request with another body and other files. *)
Definition with_payload (rq : HttpRequest) (b : list byte)
    (fs : gomap.t httpFile) : HttpRequest :=
  {| method := method rq; url := url rq; headers := headers rq;
     params := params rq; files := fs; body := b;
     multipart := multipart rq |}.

(** The request with other parameters. *)
Definition with_params (rq : HttpRequest) (p : Values) : HttpRequest :=
  {| method := method rq; url := url rq; headers := headers rq;
     params := p; files := files rq; body := body rq;
     multipart := multipart rq |}.

(** The parameters with only the first value of each key kept. *)
Definition first_values (p : Values) : Values :=
  map (fun kv => (fst kv, firstn 1 (snd kv))) p.

(** What [Do] hands to the client once the request is built: the context
    with the deadline, then the headers. *)
Definition dressed (rq : HttpRequest) (ctx : Context) (timeout : Z)
    (request : Request) : Request :=
  fold_left
    (fun request key =>
       match gomap.lookup key (headers rq) with
       | Some value => Header_Set request key value
       | None => request
       end)
    (order (gomap.keys (headers rq)))
    (Request_WithContext request
       (if 0 <? timeout
        then WithTimeout ctx (wrap 64 (wrap 64 timeout * Second))
        else ctx)).

(** The end of [Do]: the request goes to the client, the body of the
    response is read and closed. *)
Definition deliver (request : Request)
    : St Machine (option HttpResponse * option GoError) :=
  answer <- client_send request ;;
  match answer with
  | Failed err => ret (None, Some err)
  | Ok response =>
      read <- outside_step (ReadAll response) ;;
      outside_step (fun o => (tt, Body_Close response o)) ;;;
      match read with
      | Failed err => ret (None, Some err)
      | Ok contents =>
          ret (Some {| response := response; contents := contents |}, None)
      end
  end.

End CurlVocabulary.

(** Stand-ins for the HTTP collaborators: URLs as strings (one that starts
    with a colon does not parse), a client that answers 200 with an empty
    body, files that are their own content. *)
Module SimHttp.

Record Req : Type := {
  rmethod : string; rurl : string; rbody : option (list byte);
  rctx : Context; rheaders : list (string * string)
}.

Definition parse (s : string) : result string :=
  if String.prefix ":" s
  then Failed (Errorf "parse %s: missing protocol scheme" [OpString s])
  else Ok s.

Definition encode (v : gomap.t (list string)) : string :=
  String.concat "&"
    (map (fun k => k ++ "=" ++ curl.Values_Get v k) (gomap.keys v)).

Definition upper (c : ascii) : ascii :=
  let n := nat_of_ascii c in
  if ((97 <=? n) && (n <=? 122))%nat then ascii_of_nat (n - 32) else c.

Definition lower (c : ascii) : ascii :=
  let n := nat_of_ascii c in
  if ((65 <=? n) && (n <=? 90))%nat then ascii_of_nat (n + 32) else c.

Fixpoint map_string (f : ascii -> ascii) (s : string) : string :=
  match s with
  | EmptyString => EmptyString
  | String c rest => String (f c) (map_string f rest)
  end.

#[export] Instance lib : HttpLib := {|
  ToUpper := map_string upper;
  ToLower := map_string lower;
  order := fun ks => ks;
  order_visits_each_once := fun ks => Permutation_refl ks;
  URL := string;
  url_Parse := parse;
  URL_Query := fun _ => [];
  URL_setRawQuery := fun u q => u ++ "?" ++ q;
  URL_String := fun u => u;
  Values_Encode := encode;
  Outside := nat;
  File := string;
  Writer := list string;
  NewWriter := [];
  CreateFormFile := fun w k n => Ok (w ++ [(k ++ ":" ++ n)%string])%list;
  CreateFormField := fun w k => Ok (w ++ [k])%list;
  copyFile := fun w f o => (Ok (w ++ [f])%list, o);
  copyString := fun w s => Ok (w ++ [s])%list;
  FormDataContentType := fun _ => "multipart/form-data; boundary=b";
  Writer_Close := fun w => w;
  Buffer := fun w => list_byte_of_string (String.concat "|" w);
  File_Close := fun _ o => o;
  Request := Req;
  http_NewRequest := fun m u b =>
    Ok {| rmethod := m; rurl := u; rbody := b; rctx := Background;
          rheaders := [] |};
  Request_WithContext := fun r c =>
    {| rmethod := rmethod r; rurl := rurl r; rbody := rbody r; rctx := c;
       rheaders := rheaders r |};
  Header_Set := fun r k v =>
    {| rmethod := rmethod r; rurl := rurl r; rbody := rbody r;
       rctx := rctx r; rheaders := (k, v) :: rheaders r |};
  Response := Z;
  StatusCode := fun r => r;
  client_Do := fun _ o => (Ok 200, S o);
  ReadAll := fun _ o => (Ok [], o);
  Body_Close := fun _ o => o
|}.

Definition fresh : curl.HttpWorld :=
  {| curl.outside := 0%nat; curl.closed := []; curl.sent := [] |}.

Definition machine (rq : curl.HttpRequest) : curl.Machine :=
  {| curl.self := rq; curl.world := fresh |}.

End SimHttp.

(** ** Package [database]: the SQL client *)

(** The calls the package makes on a handle of the driver: the
    connection, a transaction or a prepared named statement. *)
Inductive Action : Type :=
| ASetMaxOpenConns (n : Z)
| ASetMaxIdleConns (n : Z)
| ASetConnMaxLifetime (d : Duration)
| APing
| AExecContext (ctx : Context) (query : string) (args : list Value)
| AQueryRowxContext (ctx : Context) (query : string) (args : list Value)
| AGetContext (ctx : Context) (dest : Value) (query : string)
    (args : list Value)
| ASelectContext (ctx : Context) (dest : Value) (query : string)
    (args : list Value)
| AStmtExecContext (ctx : Context) (arg : Value)
| AStmtGetContext (ctx : Context) (dest : Value) (arg : Value)
| AStmtSelectContext (ctx : Context) (dest : Value) (arg : Value).

(** What the package takes from [sqlx] and [database/sql]: opening a
    connection, the conversion of named queries, the rebinding of
    placeholders, and the driver behind every handle.  An answer is the
    value the call yields (a result, a row, the destination after a scan)
    and its error. *)
Class SqlLib : Type := {
  DBState : Type;
  Handle : Type;
  sqlx_Connect : string -> string -> DBState -> result Handle * DBState;
  sqlx_Named : string -> Value -> (string * list Value) * option GoError;
  sqlx_In : string -> list Value -> (string * list Value) * option GoError;
  sqlx_Rebind : Handle -> string -> string;
  serve : Handle -> Action -> DBState -> (Value * option GoError) * DBState
}.

Module database.

Record Config : Type := {
  DSN : string; Driver : string;
  MaxOpenConns : Z; MaxIdleConns : Z; ConnMaxLifeTime : Z
}.

(** [time.Hour] *)
Definition Hour : Duration := 3600 * Second.

Definition convertNamed `{SqlLib} (query : string) (arg : Value)
    : (string * list Value) * option GoError :=
  let '((query, args), err) := sqlx_Named query arg in
  match err with
  | Some _ => ((query, args), err)
  | None => sqlx_In query args
  end.

(** [errors.New("Missing parameter for this action")] *)
Definition missingParameter : GoError :=
  Errorf "Missing parameter for this action" [].

Section Driver.
Context `{SqlLib}.

(** The state of the driver and the calls made on handles, in order. *)
Record DbWorld : Type := {
  state : DBState;
  calls : list (Handle * Action)
}.

Definition call (h : Handle) (a : Action)
    : St DbWorld (Value * option GoError) :=
  fun w =>
    let (answer, s) := serve h a (state w) in
    (answer, {| state := s; calls := (calls w ++ [(h, a)])%list |}).

(** A call that is made only under a condition. *)
Definition when (b : bool) (c : St DbWorld (Value * option GoError))
    : St DbWorld unit :=
  if b then c ;;; ret tt else ret tt.

End Driver.

Module Database.

Section Methods.
Context `{SqlLib}.

Record t : Type := { connection : Handle }.

Definition Ping (db : t) : St DbWorld (option GoError) :=
  '(_, err) <- call (connection db) APing ;; ret err.

Definition Rebind (db : t) (query : string) : string :=
  sqlx_Rebind (connection db) query.

Definition Exec (db : t) (ctx : Context) (query : string)
    (args : list Value) : St DbWorld (Value * option GoError) :=
  let query := sqlx_Rebind (connection db) query in
  call (connection db) (AExecContext ctx query args).

Definition NamedExec (db : t) (ctx : Context) (query : string)
    (arg : Value) : St DbWorld (Value * option GoError) :=
  let '((query, args), err) := convertNamed query arg in
  match err with
  | Some _ => ret (VNil, err)
  | None =>
      let query := sqlx_Rebind (connection db) query in
      call (connection db) (AExecContext ctx query args)
  end.

(** The row is nil when the conversion fails. *)
Definition NamedQueryRowx (db : t) (ctx : Context) (query : string)
    (arg : Value) : St DbWorld (option (Value * option GoError)) :=
  let '((query, args), err) := convertNamed query arg in
  match err with
  | Some _ => ret None
  | None =>
      let query := sqlx_Rebind (connection db) query in
      row <- call (connection db) (AQueryRowxContext ctx query args) ;;
      ret (Some row)
  end.

Definition Get (db : t) (ctx : Context) (dest : Value)
    (query : string) (args : list Value)
    : St DbWorld (Value * option GoError) :=
  call (connection db) (AGetContext ctx dest query args).

Definition NamedGet (db : t) (ctx : Context) (dest : Value)
    (query : string) (arg : Value) : St DbWorld (Value * option GoError) :=
  let '((query, args), err) := convertNamed query arg in
  match err with
  | Some _ => ret (dest, err)
  | None =>
      let query := sqlx_Rebind (connection db) query in
      call (connection db) (AGetContext ctx dest query args)
  end.

Definition Select (db : t) (ctx : Context) (dest : Value)
    (query : string) (args : list Value)
    : St DbWorld (Value * option GoError) :=
  call (connection db) (ASelectContext ctx dest query args).

Definition NamedSelect (db : t) (ctx : Context) (dest : Value)
    (query : string) (arg : Value) : St DbWorld (Value * option GoError) :=
  let '((query, args), err) := convertNamed query arg in
  match err with
  | Some _ => ret (dest, err)
  | None =>
      let query := sqlx_Rebind (connection db) query in
      call (connection db) (ASelectContext ctx dest query args)
  end.

End Methods.

End Database.

Definition Connect `{SqlLib} (cfg : Config)
    : St DbWorld (option Database.t * option GoError) :=
  connected <-
    (fun w =>
       let (r, s) := sqlx_Connect (Driver cfg) (DSN cfg) (state w) in
       (r, {| state := s; calls := calls w |})) ;;
  match connected with
  | Failed err => ret (None, Some err)
  | Ok db =>
      when (0 <? MaxOpenConns cfg)
        (call db (ASetMaxOpenConns (MaxOpenConns cfg))) ;;;
      when (0 <? MaxIdleConns cfg)
        (call db (ASetMaxIdleConns (MaxIdleConns cfg))) ;;;
      when (0 <? ConnMaxLifeTime cfg)
        (call db (ASetConnMaxLifetime
                    (wrap 64 (wrap 64 (ConnMaxLifeTime cfg) * Hour)))) ;;;
      '(_, err) <- call db APing ;;
      ret (Some {| Database.connection := db |}, err)
  end.

Module DBTransaction.

Section Methods.
Context `{SqlLib}.

Record t : Type := { connection : Handle; transaction : Handle }.

Definition Exec (tx : t) (ctx : Context) (query : string)
    (args : list Value) : St DbWorld (Value * option GoError) :=
  call (transaction tx) (AExecContext ctx query args).

Definition NamedExec (tx : t) (ctx : Context) (query : string)
    (arg : Value) : St DbWorld (Value * option GoError) :=
  let '((query, args), err) := convertNamed query arg in
  match err with
  | Some _ => ret (VNil, err)
  | None =>
      let query := sqlx_Rebind (connection tx) query in
      call (transaction tx) (AExecContext ctx query args)
  end.

Definition NamedQueryRowx (tx : t) (ctx : Context)
    (query : string) (arg : Value)
    : St DbWorld (option (Value * option GoError)) :=
  let '((query, args), err) := convertNamed query arg in
  match err with
  | Some _ => ret None
  | None =>
      let query := sqlx_Rebind (connection tx) query in
      row <- call (transaction tx) (AQueryRowxContext ctx query args) ;;
      ret (Some row)
  end.

End Methods.

End DBTransaction.

Module NamedStatement.

Section Methods.
Context `{SqlLib}.

Record t : Type := { statement : Handle }.

Definition Exec (stmt : t) (ctx : Context) (args : list Value)
    : St DbWorld (Value * option GoError) :=
  match args with
  | [] => ret (VNil, Some missingParameter)
  | arg0 :: _ => call (statement stmt) (AStmtExecContext ctx arg0)
  end.

Definition Get (stmt : t) (ctx : Context) (dest : Value)
    (args : list Value) : St DbWorld (Value * option GoError) :=
  match args with
  | [] => ret (dest, Some missingParameter)
  | arg0 :: _ => call (statement stmt) (AStmtGetContext ctx dest arg0)
  end.

Definition Select (stmt : t) (ctx : Context) (dest : Value)
    (args : list Value) : St DbWorld (Value * option GoError) :=
  match args with
  | [] => ret (dest, Some missingParameter)
  | arg0 :: _ => call (statement stmt) (AStmtSelectContext ctx dest arg0)
  end.

End Methods.

End NamedStatement.

End database.

(** The state the driver is in once it has served the calls [cs], made
    in that order from the state [s]. *)
Definition replay `{SqlLib} (cs : list (Handle * Action)) (s : DBState)
    : DBState :=
  fold_left (fun s c => snd (serve (fst c) (snd c) s)) cs s.

(** Stand-ins for the SQL collaborators: a driver that knows the driver
    name postgres, answers every call with a nil value and no error, and
    rebinds nothing; named queries whose argument is not a struct do not
    convert. *)
Module SimSql.

#[export] Instance lib : SqlLib := {|
  DBState := nat;
  Handle := string;
  sqlx_Connect := fun driver dsn s =>
    if (driver =? "postgres")%string then (Ok dsn, S s)
    else (Failed (Errorf "sql: unknown driver %s" [OpString driver]), s);
  sqlx_Named := fun query arg =>
    match arg with
    | VStruct fields => ((query, map snd fields), None)
    | _ => ((query, []), Some (Errorf "sqlx: unsupported argument" []))
    end;
  sqlx_In := fun query args => ((query, args), None);
  sqlx_Rebind := fun _ query => query;
  serve := fun _ _ s => ((VNil, None), S s)
|}.

Definition fresh : database.DbWorld :=
  {| database.state := 0%nat; database.calls := [] |}.

End SimSql.

(** ** Package [log]: the logger *)

(** What the package takes from [logrus]: the levels, the two formatters
    it configures, and the fields of an entry. *)
Module logrus.

Inductive Level : Type :=
| PanicLevel | FatalLevel | ErrorLevel | WarnLevel | InfoLevel | DebugLevel
| TraceLevel.

Inductive Formatter : Type :=
| JSONFormatter (TimestampFormat : string)
| TextFormatter (FullTimestamp : bool) (TimestampFormat : string).

(** [logrus.Fields], the data of an entry. *)
Definition Fields : Type := gomap.t Value.

(** [entry.WithField(key, value)]: an entry with the old fields and the
    new one. *)
Definition WithField (data : Fields) (key : string) (value : Value)
    : Fields :=
  gomap.store key value data.

End logrus.

(** [ctx.Value(key)] for a string key: the value set nearest to [ctx]. *)
Fixpoint Context_Value (ctx : Context) (key : string) : option Value :=
  match ctx with
  | Background => None
  | WithTimeout parent _ => Context_Value parent key
  | WithValue parent k v =>
      if (k =? key)%string then Some (VString v) else Context_Value parent key
  end.

(** [strings.Split(s, sep)] for a separator of one byte: the pieces
    between the separators, one more than there are separators. *)
Fixpoint Split (s : string) (sep : ascii) : list string :=
  match s with
  | EmptyString => [EmptyString]
  | String c rest =>
      if Ascii.eqb c sep then EmptyString :: Split rest sep
      else
        match Split rest sep with
        | [] => [String c EmptyString]
        | piece :: pieces => String c piece :: pieces
        end
  end.

(** [strings.Join(pieces, sep)] *)
Definition Join (pieces : list string) (sep : string) : string :=
  String.concat sep pieces.

Module log.

Record LogConfig : Type := {
  StdoutFile : string; StderrFile : string; Level : string
}.

(** The configuration that [InitLogger] hands to [NewRotateFileHook]. *)
Record RotateFileConfig : Type := {
  Filename : string; MaxSize : Z; MaxBackups : Z; MaxAge : Z;
  RotateLevel : logrus.Level; RotateFormatter : logrus.Formatter
}.

(** [lfshook.PathMap] *)
Definition PathMap : Type := list (logrus.Level * string).

(** The hooks a logger can be given: the rotating file hook of this
    repository, whose constructor is defined outside the sources at hand,
    and the hook of [lfshook]. *)
Inductive Hook : Type :=
| RotateFileHook (config : RotateFileConfig)
| LfsHook (paths : PathMap) (formatter : logrus.Formatter).

(** [*logrus.Logger] as the package configures it. *)
Record Logger : Type := {
  formatter : logrus.Formatter;
  level : logrus.Level;
  hooks : list Hook
}.

(** [Entry]: the fields gathered so far and the context keys known when
    the entry was made. *)
Record Entry : Type := {
  entry : logrus.Fields;
  contextData : list string
}.

(** The package's variables [logger] and [contextData], and the entries
    allocated so far; a [*Entry] is the position of its entry. *)
Record Global : Type := {
  logger : Logger;
  globalContextData : list string;
  heap : list Entry
}.

Definition getLevel (level : string) : logrus.Level :=
  if (level =? "error")%string then logrus.ErrorLevel
  else if (level =? "info")%string then logrus.InfoLevel
  else if (level =? "debug")%string then logrus.DebugLevel
  else logrus.ErrorLevel.

Definition InitLogger (env : string) (conf : LogConfig)
    (ctxData : list string) : St Global unit :=
  let formatter := logrus.JSONFormatter "2006-01-02 15:04:05" in
  let formatter :=
    if (env =? "")%string || (env =? "development")%string
       || (env =? "local")%string
    then logrus.TextFormatter true "2006-01-02 15:04:05"
    else formatter in
  let pathMap : PathMap := [] in
  let pathMap :=
    if negb (StdoutFile conf =? "")%string
    then (logrus.DebugLevel, StdoutFile conf) :: pathMap
    else pathMap in
  let pathMap :=
    if negb (StderrFile conf =? "")%string
    then (logrus.ErrorLevel, StdoutFile conf)
         :: (logrus.InfoLevel, StdoutFile conf) :: pathMap
    else pathMap in
  let rotateFileHook :=
    RotateFileHook
      {| Filename := StdoutFile conf; MaxSize := 50; MaxBackups := 7;
         MaxAge := 7; RotateLevel := logrus.DebugLevel;
         RotateFormatter := formatter |} in
  modify (fun g =>
    let l := logger g in
    let hooks := (hooks l ++ [rotateFileHook])%list in
    let hooks :=
      if (0 <? List.length pathMap)%nat
      then (hooks ++ [LfsHook pathMap formatter])%list
      else hooks in
    {| logger := {| formatter := formatter;
                    level := getLevel (Level conf);
                    hooks := hooks |};
       globalContextData := ctxData;
       heap := heap g |}).

Definition getContextValue (ctx : Context) (key : string)
    (entry : logrus.Fields) : logrus.Fields :=
  match Context_Value ctx key with
  | Some value => logrus.WithField entry key value
  | None => entry
  end.

(** The slice [paths[len(paths)-4:]] does not exist for fewer than four
    pieces: the function panics, which is [None] here. *)
Definition formatFilePath (f : string) : option string :=
  let paths := Split f "/" in
  if (List.length paths <? 4)%nat then None
  else
    let paths := skipn (List.length paths - 4) paths in
    Some (Join paths "/").

(** [&Entry{...}]: a new entry at the end of the heap. *)
Definition allocate (en : Entry) : St Global nat :=
  fun g =>
    (List.length (heap g),
     {| logger := logger g; globalContextData := globalContextData g;
        heap := (heap g ++ [en])%list |}).

Fixpoint replace (p : nat) (en : Entry) (h : list Entry) : list Entry :=
  match h, p with
  | [], _ => []
  | _ :: rest, O => en :: rest
  | first :: rest, S p' => first :: replace p' en rest
  end.

(** An assignment through the pointer [p]. *)
Definition assign (p : nat) (f : Entry -> Entry) : St Global unit :=
  modify (fun g =>
    match nth_error (heap g) p with
    | Some en =>
        {| logger := logger g; globalContextData := globalContextData g;
           heap := replace p (f en) (heap g) |}
    | None => g
    end).

Definition WithField (key : string) (value : Value) : St Global nat :=
  g <- get ;;
  let entry := logrus.WithField [] key value in
  allocate {| entry := entry; contextData := globalContextData g |}.

Definition WithFields (fields : list (string * Value)) : St Global nat :=
  g <- get ;;
  let entry :=
    fold_left (fun entry kv => logrus.WithField entry (fst kv) (snd kv))
      fields [] in
  allocate {| entry := entry; contextData := globalContextData g |}.

Definition WithContext (ctx : Context) : St Global nat :=
  g <- get ;;
  let entry :=
    fold_left (fun entry v => getContextValue ctx v entry)
      (globalContextData g) [] in
  allocate {| entry := entry; contextData := globalContextData g |}.

(** The methods of [*Entry] assign the new fields to the entry behind the
    receiver and return the receiver. *)
Definition Entry_WithField (en : nat) (key : string) (value : Value)
    : St Global nat :=
  assign en (fun e =>
    {| entry := logrus.WithField (entry e) key value;
       contextData := contextData e |}) ;;;
  ret en.

Definition Entry_WithFields (en : nat) (fields : list (string * Value))
    : St Global nat :=
  assign en (fun e =>
    {| entry :=
         fold_left (fun entry kv => logrus.WithField entry (fst kv) (snd kv))
           fields (entry e);
       contextData := contextData e |}) ;;;
  ret en.

Definition Entry_WithContext (en : nat) (ctx : Context) : St Global nat :=
  assign en (fun e =>
    {| entry :=
         fold_left (fun entry v => getContextValue ctx v entry)
           (contextData e) (entry e);
       contextData := contextData e |}) ;;;
  ret en.

(** The configuration with another path for the error file. *)
Definition with_StderrFile (conf : LogConfig) (path : string) : LogConfig :=
  {| StdoutFile := StdoutFile conf; StderrFile := path;
     Level := Level conf |}.

(** The paths of the files a hook writes to. *)
Definition paths_of (h : Hook) : list string :=
  match h with
  | RotateFileHook config => [Filename config]
  | LfsHook paths _ => map snd paths
  end.

(** The number of separators in a string. *)
Fixpoint occurrences (sep : ascii) (s : string) : nat :=
  match s with
  | EmptyString => O
  | String c rest =>
      if Ascii.eqb c sep then S (occurrences sep rest)
      else occurrences sep rest
  end.

(** A computation run [n] times in a row. *)
Fixpoint times (n : nat) (c : St Global unit) : St Global unit :=
  match n with
  | O => ret tt
  | S n' => c ;;; times n' c
  end.

(** The fields of the entry behind a pointer. *)
Definition fields_at (g : Global) (p : nat) : option logrus.Fields :=
  option_map entry (nth_error (heap g) p).

End log.


(** * Properties *)

(** ** The monad *)

Lemma bind_run {S A B : Type} (m : St S A) (k : A -> St S B) (s : S) :
  bind m k s = k (fst (m s)) (snd (m s)).
Proof. unfold bind. destruct (m s); reflexivity. Qed.

Lemma ret_run {S A : Type} (a : A) (s : S) : ret a s = (a, s).
Proof. reflexivity. Qed.

(** ** [stringToInterface] *)

Lemma stringToInterface_fold (values : list string) (acc : list Value) :
  fold_left (fun args v => (args ++ [VString v])%list) values acc
  = (acc ++ map VString values)%list.
Proof.
  revert acc. induction values as [|v values IH]; intros acc; simpl.
  - now rewrite app_nil_r.
  - rewrite IH, <- app_assoc. reflexivity.
Qed.

Lemma stringToInterface_eq (key : string) (values : list string) :
  stringToInterface key values = VString key :: map VString values.
Proof. unfold stringToInterface. now rewrite stringToInterface_fold. Qed.

(** ** [Do], the choke point *)

Section DoProperties.
Context `{Backend} `{Library}.
Import Redis.

Lemma Do_run (ctx : Context) (command : string) (args : list Value)
    (m : Machine) :
  Do ctx command args m
  = ({| Reply.result := fst (fst (answered (self m) command args (world m)));
        Reply.error := snd (fst (answered (self m) command args (world m))) |},
     {| self := self m;
        world :=
          {| remote := remote (snd (answered (self m) command args (world m)));
             borrowed := borrowed (world m);
             events := (events (world m) ++ exchange (self m) command args)%list;
             waits := waits (snd (answered (self m) command args (world m)))
          |} |}).
Proof.
  destruct m as [r w]. unfold Do, getConnection, answered, exchange.
  unfold inWorld, pool_Get, awaitSlot, conn_DoWithTimeout, conn_Close, record.
  unfold bind, gets, modify, ret. simpl.
  destruct (Wait (pool r) && saturated (pool r) (borrowed w)); simpl;
    destruct (acquire (pool r) (remote w)) as [[e|] rem]; simpl;
    try (rewrite <- !app_assoc; reflexivity);
    destruct (roundTrip (timeout r) command args rem) as [[v e] rem'];
    simpl; rewrite <- !app_assoc; reflexivity.
Qed.

(** A Get waits exactly when the pool is built to wait and has no free
    slot. *)
Lemma answered_waits (r : Redis.t) command args (w : World) :
  waits (snd (answered r command args w))
  = if Wait (pool r) && saturated (pool r) (borrowed w)
    then S (waits w) else waits w.
Proof.
  unfold answered, pool_Get, awaitSlot, conn_DoWithTimeout, record.
  unfold bind, modify. simpl.
  destruct (Wait (pool r) && saturated (pool r) (borrowed w)); simpl;
    destruct (acquire (pool r) (remote w)) as [[e|] rem]; simpl;
    try reflexivity;
    now destruct (roundTrip (timeout r) command args rem) as [[v e] rem'].
Qed.

Lemma Do_waits ctx command args m :
  waits (world (snd (Do ctx command args m)))
  = if Wait (pool (self m)) && saturated (pool (self m)) (borrowed (world m))
    then S (waits (world m)) else waits (world m).
Proof. rewrite Do_run. cbn [snd world waits]. apply answered_waits. Qed.

Lemma Do_self ctx command args m :
  self (snd (Do ctx command args m)) = self m.
Proof. now rewrite Do_run. Qed.

Lemma Do_since ctx command args m :
  since m (snd (Do ctx command args m)) (exchange (self m) command args).
Proof. unfold since. now rewrite Do_run. Qed.

Lemma Do_borrowed ctx command args m :
  borrowed (world (snd (Do ctx command args m))) = borrowed (world m).
Proof. now rewrite Do_run. Qed.

Lemma since_trans (m1 m2 m3 : Machine) (evs evs' : list Event) :
  since m1 m2 evs -> since m2 m3 evs' -> since m1 m3 (evs ++ evs')%list.
Proof.
  unfold since. intros H12 H23. now rewrite H23, H12, app_assoc.
Qed.

(** A timed-out command on a live connection, seen from [answered]. *)
Lemma answered_live (r : Redis.t) command args (w : World) rem out rem' :
  acquire (pool r) (remote w) = (None, rem) ->
  roundTrip (timeout r) command args rem = (out, rem') ->
  fst (answered r command args w) = out.
Proof.
  intros Hacq Hrt.
  unfold answered, pool_Get, awaitSlot, conn_DoWithTimeout, record.
  unfold bind, modify. simpl.
  destruct (Wait (pool r) && saturated (pool r) (borrowed w)); simpl;
    rewrite Hacq; simpl; now rewrite Hrt.
Qed.

(** A failed dial answers every command with the dial's error. *)
Lemma answered_refused (r : Redis.t) command args (w : World) e rem :
  acquire (pool r) (remote w) = (Some e, rem) ->
  fst (answered r command args w) = (VNil, Some e).
Proof.
  intros Hacq.
  unfold answered, pool_Get, awaitSlot, conn_DoWithTimeout, record.
  unfold bind, modify. simpl.
  destruct (Wait (pool r) && saturated (pool r) (borrowed w)); simpl;
    now rewrite Hacq.
Qed.

(** C5. When the pool has a free slot, then for every command name and
    argument list [Do] takes one connection from the pool without having
    to wait, runs the command on it under the client's timeout and closes
    the connection, whatever the outcome: the calls it makes are exactly
    Get, DoWithTimeout, Close, the number of borrowed connections is what
    it was, and the slot is free again for the next call.  The Reply holds
    the result and the error that the connection returned; when the
    command times out on a live connection the Reply carries that timeout
    error, and the connection has been returned all the same. *)
Theorem Do_borrows_runs_releases (ctx : Context) (command : string)
    (args : list Value) (m : Machine) :
  saturated (pool (self m)) (borrowed (world m)) = false ->
  let r := self m in
  let rp := fst (Do ctx command args m) in
  let m' := snd (Do ctx command args m) in
  waits (world m') = waits (world m)
  /\ since m m' [EvGet (pool r); EvDo (timeout r) command args; EvClose]
  /\ borrowed (world m') = borrowed (world m)
  /\ saturated (pool (self m')) (borrowed (world m')) = false
  /\ (Reply.result rp, Reply.error rp)
     = fst (answered r command args (world m))
  /\ (forall rem v e rem',
        acquire (pool r) (remote (world m)) = (None, rem) ->
        roundTrip (timeout r) command args rem = ((v, Some e), rem') ->
        isTimeout e = true ->
        rp = {| Reply.result := v; Reply.error := Some e |}
        /\ borrowed (world m') = borrowed (world m)
        /\ waits (world m') = waits (world m)).
Proof.
  intros Hfree r rp m'. subst r rp m'.
  assert (Hw : waits (world (snd (Do ctx command args m)))
               = waits (world m))
    by now rewrite Do_waits, Hfree, andb_false_r.
  split; [exact Hw|]. split; [apply Do_since|].
  split; [apply Do_borrowed|].
  split; [now rewrite Do_self, Do_borrowed|]. split.
  - rewrite Do_run. simpl.
    now destruct (answered (self m) command args (world m)) as [[v e] w'].
  - intros rem v e rem' Hacq Hrt _. split; [|split].
    + rewrite Do_run. simpl. now rewrite (answered_live _ _ _ _ Hacq Hrt).
    + apply Do_borrowed.
    + exact Hw.
Qed.

(** On a pool that is built to wait and has no free slot, the Get of [Do]
    has to wait. *)
Lemma Do_waits_without_slot ctx command args (m : Machine) :
  Wait (pool (self m)) = true ->
  saturated (pool (self m)) (borrowed (world m)) = true ->
  waits (world (snd (Do ctx command args m))) = S (waits (world m)).
Proof. intros Hw Hs. now rewrite Do_waits, Hw, Hs. Qed.

End DoProperties.

(** ** The typed operations *)

Section TypedOperations.
Context `{Backend} `{Library}.
Import Redis.

Lemma Expire_run ctx key expire m :
  Expire ctx key expire m = Do ctx "EXPIRE" [VString key; VInt expire] m.
Proof. reflexivity. Qed.

(** An operation that runs one command and then sets an expiry returns
    the reply of the command and makes the two exchanges in that order. *)
Lemma then_Expire_run ctx command args key expire m :
  (result <- Do ctx command args ;; Expire ctx key expire ;;; ret result) m
  = (fst (Do ctx command args m),
     snd (Expire ctx key expire (snd (Do ctx command args m)))).
Proof. now rewrite !bind_run. Qed.

Lemma then_Expire_since ctx command args key expire m :
  since m
    (snd ((result <- Do ctx command args ;; Expire ctx key expire ;;;
           ret result) m))
    (exchange (self m) command args
     ++ exchange (self m) "EXPIRE" [VString key; VInt expire])%list.
Proof.
  rewrite then_Expire_run. cbn [snd]. rewrite Expire_run.
  eapply since_trans; [apply (Do_since ctx)|].
  rewrite <- (Do_self ctx command args m). apply Do_since.
Qed.

(** C1. For every key and value, [Set] makes the exchange of a SET command
    and then the exchange of an EXPIRE command with 900 seconds (15 * 60);
    the Reply it returns is the Reply of the SET command, whatever the
    EXPIRE call returns, an error included. *)
Theorem Set_issues_SET_then_EXPIRE_900 (ctx : Context) (key : string)
    (value : Value) (m : Machine) :
  let r := self m in
  let set := Do ctx "SET" [VString key; value] m in
  let expire := Expire ctx key 900 (snd set) in
  since m (snd (Set_ ctx key value m))
    [EvGet (pool r); EvDo (timeout r) "SET" [VString key; value]; EvClose;
     EvGet (pool r); EvDo (timeout r) "EXPIRE" [VString key; VInt 900];
     EvClose]
  /\ fst (Set_ ctx key value m) = fst set
  /\ snd (Set_ ctx key value m) = snd expire
  /\ (forall e, Reply.error (fst expire) = Some e ->
                fst (Set_ ctx key value m) = fst set).
Proof.
  intros r set expire. subst r set expire. unfold Set_.
  change (15 * 60) with 900.
  split; [apply then_Expire_since|].
  rewrite then_Expire_run. simpl. auto.
Qed.

(** C4. Of the three entry points that add to a set, only [SAdd] follows
    the SADD command with an EXPIRE of 900 seconds; [SAddWithExpire] and
    [SAddNoExpire] make the SADD exchange alone.  All three pass the key
    followed by the values, in order, as the arguments of SADD. *)
Theorem SAdd_alone_sets_default_expiry (ctx : Context) (key : string)
    (expire : Z) (values : list string) (m : Machine) :
  let r := self m in
  let sadd :=
    [EvGet (pool r);
     EvDo (timeout r) "SADD" (VString key :: map VString values);
     EvClose] in
  since m (snd (SAdd ctx key values m))
    (sadd ++ [EvGet (pool r);
              EvDo (timeout r) "EXPIRE" [VString key; VInt 900];
              EvClose])%list
  /\ since m (snd (SAddWithExpire ctx key expire values m)) sadd
  /\ since m (snd (SAddNoExpire ctx key values m)) sadd.
Proof.
  intros r sadd. subst r sadd.
  unfold SAdd, SAddWithExpire, SAddNoExpire.
  rewrite stringToInterface_eq. change (15 * 60) with 900.
  split; [apply then_Expire_since|].
  split; apply Do_since.
Qed.

(** C9. [SAddWithExpire] and [SAddNoExpire] are the same function of the
    context, the key and the values: for every expiry they return the same
    Reply and leave the same machine, and the only exchange made is the one
    SADD command, so no command carries the expiry. *)
Theorem SAddWithExpire_is_SAddNoExpire (ctx : Context) (key : string)
    (expire : Z) (values : list string) (m : Machine) :
  SAddWithExpire ctx key expire values m = SAddNoExpire ctx key values m
  /\ since m (snd (SAddWithExpire ctx key expire values m))
       [EvGet (pool (self m));
        EvDo (timeout (self m)) "SADD" (VString key :: map VString values);
        EvClose].
Proof.
  split; [reflexivity|].
  unfold SAddWithExpire. rewrite stringToInterface_eq. apply Do_since.
Qed.

(** C10. When the JSON marshalling of the value fails, [SetStruct],
    [SetStructWithExpire] and [SetStructNoExpire] return a Reply that holds
    the marshalling error and a nil result, and leave the machine as it
    was: no call on the pool, no command, the endpoint untouched. *)
Theorem SetStruct_marshal_failure_issues_nothing (ctx : Context)
    (key : string) (expire : Z) (value : Value) (b : list byte) (e : GoError)
    (m : Machine) :
  json_Marshal value = (b, Some e) ->
  let failed := {| Reply.result := VNil; Reply.error := Some e |} in
  SetStruct ctx key value m = (failed, m)
  /\ SetStructWithExpire ctx key expire value m = (failed, m)
  /\ SetStructNoExpire ctx key value m = (failed, m).
Proof.
  intros Hm failed.
  unfold SetStruct, SetStructWithExpire, SetStructNoExpire.
  rewrite Hm. repeat split.
Qed.

End TypedOperations.

(** ** Integer conversions *)

Lemma wrap_in_range (bits z : Z) :
  0 < bits -> in_range bits z -> wrap bits z = z.
Proof.
  unfold wrap, in_range. intros Hbits Hz.
  replace (2 ^ bits) with (2 * 2 ^ (bits - 1)).
  - rewrite Z.mod_small; lia.
  - rewrite <- Z.pow_succ_r by lia. f_equal. lia.
Qed.

Lemma Int_of_integer_reply `{Library} (n : Z) :
  in_range 64 n -> redis.Int (VInt64 n) None = (n, None).
Proof.
  intros Hn. unfold redis.Int, IntSize.
  rewrite wrap_in_range by (assumption || lia).
  now rewrite Z.eqb_refl.
Qed.

(** ** [Exists] *)

Section ExistsProperties.
Context `{Backend} `{Library}.
Import Redis.

(** C6. For every key, when the EXISTS command succeeds with its integer
    reply [n], [Exists] returns a boolean and a nil error; the boolean is
    true exactly when [n] is 1, so the reply 0 of an absent key (as after a
    Del) gives false and no error. *)
Theorem Exists_is_true_exactly_on_reply_1 (ctx : Context) (key : string)
    (n : Z) (m m' : Machine) :
  in_range 64 n ->
  Do ctx "EXISTS" [VString key] m
  = ({| Reply.result := VInt64 n; Reply.error := None |}, m') ->
  Exists ctx key m = ((n =? 1, None), m')
  /\ (n = 0 -> Exists ctx key m = ((false, None), m'))
  /\ (fst (fst (Exists ctx key m)) = true <-> n = 1).
Proof.
  intros Hn Hdo.
  assert (Hex : Exists ctx key m = ((n =? 1, None), m')).
  { unfold Exists. rewrite bind_run, Hdo. cbn [fst snd].
    rewrite bind_run. unfold decode, Reply.Int.
    rewrite bind_run. cbn [get gets ret fst snd Reply.result Reply.error].
    now rewrite (Int_of_integer_reply Hn). }
  split; [exact Hex|]. split.
  - intros ->. exact Hex.
  - rewrite Hex. cbn [fst]. apply Z.eqb_eq.
Qed.

End ExistsProperties.

(** ** The accessors of [Reply] *)

Section ReplyProperties.
Context `{Library}.
Import Reply.

Lemma typed_keeps_reply {A : Type} (tag : A -> Decoded)
    (m : St Reply.t (A * option GoError)) (rp : Reply.t) :
  snd (m rp) = rp -> snd (typed tag m rp) = rp.
Proof.
  unfold typed. rewrite bind_run.
  destruct (m rp) as [[a e] rp']. cbn [fst snd]. now intros ->.
Qed.

Lemma Unmarshal_keeps_reply (obj : Value) (rp : Reply.t) :
  snd (Unmarshal obj rp) = rp.
Proof.
  unfold Unmarshal. rewrite bind_run. cbn [get fst snd].
  destruct (redis.Bytes (result rp) (error rp)) as [b [e|]];
    [reflexivity|].
  destruct (json_Unmarshal b obj) as [obj' [e|]]; reflexivity.
Qed.

Lemma Struct_keeps_reply (obj : Value) (rp : Reply.t) :
  snd (Struct obj rp) = rp.
Proof.
  unfold Struct. rewrite bind_run. cbn [get fst snd].
  destruct (redis.Values (result rp) (error rp)) as [vs [e|]];
    [reflexivity|].
  destruct (ScanStruct vs obj) as [obj' [e|]]; reflexivity.
Qed.

(** No accessor assigns to the struct behind its receiver. *)
Lemma access_keeps_reply (a : Accessor) (rp : Reply.t) :
  snd (access a rp) = rp.
Proof.
  destruct a; apply typed_keeps_reply;
    solve [ reflexivity
          | apply Unmarshal_keeps_reply
          | apply Struct_keeps_reply ].
Qed.

Lemma access_stored_error (a : Accessor) (res : Value) (e : GoError) :
  fst (access a {| result := res; error := Some e |})
  = (untouched a, Some e).
Proof. destruct a; reflexivity. Qed.

Lemma repeatedly_run (n : nat) (a : Accessor) (rp : Reply.t) :
  repeatedly n a rp = (repeat (fst (access a rp)) n, rp).
Proof.
  induction n as [|n IH]; [reflexivity|].
  cbn [repeatedly repeat]. rewrite bind_run, access_keeps_reply.
  rewrite bind_run, IH. reflexivity.
Qed.

(** C3. For every Reply whose stored error is not nil, each typed accessor
    (String, Float64, Int64, Int, Bool, Strings, Bytes, Unmarshal, Struct)
    returns that stored error, with the zero value or the destination as
    it was handed in, whatever the stored result is.  And for every Reply,
    any number of calls of an accessor leave the stored result and error as
    they were and return the same outcome each time; an accessor is a
    function of the Reply alone and has no access to the pool. *)
Theorem accessors_return_stored_error_and_are_idempotent :
  (forall (a : Accessor) (rp : Reply.t) (e : GoError),
      error rp = Some e ->
      access a rp = ((untouched a, Some e), rp))
  /\ (forall (a : Accessor) (n : nat) (rp : Reply.t),
        repeatedly n a rp = (repeat (fst (access a rp)) n, rp)).
Proof.
  split.
  - intros a [res err] e Herr. cbn [error] in Herr. subst err.
    rewrite (surjective_pairing (access a _)).
    now rewrite access_stored_error, access_keeps_reply.
  - intros a n rp. apply repeatedly_run.
Qed.

End ReplyProperties.

(** ** Structured values *)

Section StructProperties.
Context `{Backend} `{Library}.
Import Redis.



End StructProperties.

(** ** The client's fields *)

Section ClientProperties.
Context `{Backend} `{Library}.
Import Redis.

Lemma faithful_ret {A : Type} (a : A) : faithful (ret a).
Proof.
  intros m. split; [reflexivity|]. exists []. split; [|constructor].
  unfold since. cbn [ret snd]. now rewrite app_nil_r.
Qed.

Lemma faithful_gets {A : Type} (f : Machine -> A) : faithful (gets f).
Proof.
  intros m. split; [reflexivity|]. exists []. split; [|constructor].
  unfold since. cbn [gets snd]. now rewrite app_nil_r.
Qed.

Lemma faithful_bind {A B : Type} (c : St Machine A) (k : A -> St Machine B) :
  faithful c -> (forall a, faithful (k a)) -> faithful (bind c k).
Proof.
  intros Hc Hk m. rewrite bind_run.
  destruct (Hc m) as [Hself (evs & Hev & Hby)].
  destruct (Hk (fst (c m)) (snd (c m))) as [Hself' (evs' & Hev' & Hby')].
  split; [congruence|].
  exists (evs ++ evs')%list. split.
  - eapply since_trans; eassumption.
  - apply Forall_app. split; [assumption|]. now rewrite <- Hself.
Qed.

Lemma faithful_Do ctx command args : faithful (Do ctx command args).
Proof.
  intros m. split; [apply Do_self|].
  exists (exchange (self m) command args). split; [apply Do_since|].
  unfold exchange. repeat constructor.
Qed.

Ltac faithful_step :=
  first
    [ apply faithful_ret
    | apply faithful_Do
    | apply faithful_gets
    | apply faithful_bind; [|intro]
    | match goal with
      | |- faithful (match ?x with _ => _ end) => destruct x
      end ].

Lemma invoke_faithful (c : Call) : faithful (invoke c).
Proof.
  destruct c; cbn [invoke]; unfold reply;
    unfold Ping, Exists, TTL, Expire, Incr, IncrBy, Decr, DecrBy, Get,
      SetStruct, SetStructWithExpire, SetStructNoExpire,
      Set_, SetWithExpire, SetNoExpire, Del,
      SAdd, SAddWithExpire, SAddNoExpire, SRem, SIsMember, SMembers, SCard,
      HSet, HSetWithExpire, HSetNoExpire, HGet, HGetAll, HDel,
      ZAdd, ZRem, ZRange, ZInterStore, Expire;
    repeat faithful_step.
Qed.

Lemma run_faithful (calls : list Call) : faithful (run calls).
Proof.
  induction calls as [|c calls IH]; cbn [run].
  - apply faithful_ret.
  - apply faithful_bind; [apply invoke_faithful|intro].
    apply faithful_bind; [exact IH|intro]. apply faithful_ret.
Qed.

End ClientProperties.

(** ** [ConnectRedis] *)

Section ConnectProperties.
Context `{Backend} `{Library}.
Import Redis.

(** The health check decides by the error alone; the value that comes
    back with it is dropped. *)
Lemma ConnectRedis_run (config : RedisConfig.t) (w : World) :
  ConnectRedis config w
  = (match snd (fst (answered (constructed config) "PING" [] w)) with
     | Some e =>
         (None, Some (Errorf ErrorFailedConnect
                        [OpString (RedisConfig.Connection config);
                         OpError (Some e)]))
     | None => (Some (constructed config), None)
     end,
     snd (answered (constructed config) "PING" [] w)).
Proof.
  unfold ConnectRedis, answered, constructed.
  cbn [pool timeout]. rewrite bind_run.
  destruct (pool_Get _ w) as [conn w1]. cbn [fst snd].
  rewrite bind_run.
  destruct (conn_DoWithTimeout _ _ _ _ w1) as [[v [e|]] w2]; reflexivity.
Qed.

(** When the dial or the PING fails, no client is returned, and the error
    carries the endpoint and the cause. *)
Lemma ConnectRedis_failure (config : RedisConfig.t) (w : World) (e : GoError) :
  snd (fst (answered (constructed config) "PING" [] w)) = Some e ->
  fst (ConnectRedis config w)
  = (None, Some (Errorf ErrorFailedConnect
                   [OpString (RedisConfig.Connection config);
                    OpError (Some e)])).
Proof. intros He. now rewrite ConnectRedis_run, He. Qed.

(** A client is returned exactly when the PING comes back without error,
    and then whatever value came back with it. *)
Lemma ConnectRedis_success (config : RedisConfig.t) (w : World) :
  snd (fst (answered (constructed config) "PING" [] w)) = None <->
  exists r, fst (ConnectRedis config w) = (Some r, None).
Proof.
  rewrite ConnectRedis_run. cbn [fst].
  destruct (snd (fst (answered _ _ _ w))) as [e|]; split.
  - discriminate.
  - intros [r Hr]. discriminate.
  - intros _. now exists (constructed config).
  - reflexivity.
Qed.

(** The connection of the health check stays borrowed from the pool. *)
Lemma ConnectRedis_events (config : RedisConfig.t) (w : World) :
  events (snd (ConnectRedis config w))
  = (events w ++ [EvGet (pool (constructed config));
                  EvDo (timeout (constructed config)) "PING" []])%list.
Proof.
  rewrite ConnectRedis_run. cbn [snd]. unfold answered.
  unfold pool_Get, awaitSlot, conn_DoWithTimeout, record, bind, modify.
  cbn [fst snd remote borrowed events waits].
  destruct (Wait _ && saturated _ _);
    cbn [fst snd remote borrowed events waits];
    destruct (acquire _ (remote w)) as [[e|] rem];
    cbn [fst snd remote borrowed events waits];
    try (now rewrite <- app_assoc);
    destruct (roundTrip _ _ _ rem) as [out rem'];
    cbn [fst snd remote borrowed events waits];
    now rewrite <- app_assoc.
Qed.

(** C8. After [ConnectRedis] returns a client, its connection string,
    timeout and pool are the ones set at construction from the
    configuration, and they stay so through any sequence of operations
    (Do, Ping and the typed operations): no operation assigns to the struct
    behind the client, and every call an operation makes on the pool or on
    a connection is made with that pool and that timeout. *)
Theorem client_fields_fixed_after_ConnectRedis (config : RedisConfig.t)
    (w w' : World) (r : Redis.t) (err : option GoError) (calls : list Call) :
  ConnectRedis config w = ((Some r, err), w') ->
  let m := {| self := r; world := w' |} in
  connection r = RedisConfig.Connection config
  /\ timeout r
     = wrap 64 (wrap 64 (RedisConfig.Timeout config) * Second)
  /\ pool r = pool (constructed config)
  /\ self (snd (run calls m)) = r
  /\ exists evs, since m (snd (run calls m)) evs /\ Forall (made_by r) evs.
Proof.
  intros Hc m. rewrite ConnectRedis_run in Hc.
  assert (Hr : r = constructed config).
  { destruct (snd (fst (answered _ _ _ w))); inversion Hc; reflexivity. }
  subst r. repeat (split; [reflexivity|]).
  exact (run_faithful calls m).
Qed.

End ConnectProperties.

(** * The package at work on the small endpoint *)

Import Redis.
#[local] Existing Instance Sim.backend.
#[local] Existing Instance Sim.library.

Example connect_scenario :
  fst (ConnectRedis Sim.config (Sim.fresh Sim.endpoint))
  = (Some Sim.client, None).
Proof. reflexivity. Qed.

Example connect_unreachable :
  fst (ConnectRedis Sim.config (Sim.fresh Sim.unreachable))
  = (None,
     Some (Errorf "Failed to connect to redis %s. Error: %s"
             [OpString "localhost:6379";
              OpError (Some (NetError "dial tcp: connection refused" false))])).
Proof. reflexivity. Qed.

Example set_then_get_scenario :
  fst ((Set_ Background "k" (VString "v") ;;;
        rp <- Get Background "k" ;; ret (decode rp Reply.String))
         (Sim.machine Sim.endpoint))
  = ("v", None).
Proof. reflexivity. Qed.

Example get_never_set_scenario :
  fst ((rp <- Get Background "k" ;; ret (decode rp Reply.String))
         (Sim.machine Sim.endpoint))
  = ("", Some ErrorNil).
Proof. reflexivity. Qed.

Example set_with_failing_expire :
  fst (Set_ Background "k" (VString "v") (Sim.machine Sim.frozen))
  = {| Reply.result := VString "OK"; Reply.error := None |}
  /\ Reply.error
       (fst (Expire Background "k" 900
               (snd (Do Background "SET" [VString "k"; VString "v"]
                       (Sim.machine Sim.frozen)))))
     = Some (RedisError "ERR value is not an integer or out of range").
Proof. split; reflexivity. Qed.

Example exists_after_set :
  fst (Exists Background "k"
         (Sim.after [CSet Background "k" (VString "v")] Sim.endpoint))
  = (true, None).
Proof. reflexivity. Qed.

Example int_of_stored_error_ignores_result :
  fst (Reply.Int {| Reply.result := VBytes (list_byte_of_string "42");
                    Reply.error := None |}) = (42, None)
  /\ fst (Reply.Int {| Reply.result := VBytes (list_byte_of_string "42");
                       Reply.error := Some ErrorNil |}) = (0, Some ErrorNil).
Proof. split; reflexivity. Qed.

(** * Instances of the theorems *)

Lemma Set_issues_SET_then_EXPIRE_900_witness :
  fst (Set_ Background "k" (VString "v") (Sim.machine Sim.frozen))
  = fst (Do Background "SET" [VString "k"; VString "v"]
           (Sim.machine Sim.frozen)).
Proof.
  apply (proj2 (proj2 (proj2
    (Set_issues_SET_then_EXPIRE_900 Background "k" (VString "v")
       (Sim.machine Sim.frozen))))
    (RedisError "ERR value is not an integer or out of range")).
  reflexivity.
Defined.

Lemma Do_borrows_runs_releases_witness :
  fst (Do Background "GET" [VString "k"] (Sim.machine Sim.stalled))
  = {| Reply.result := VNil;
       Reply.error := Some (NetError "i/o timeout" true) |}
  /\ borrowed (world (snd (Do Background "GET" [VString "k"]
                             (Sim.machine Sim.stalled)))) = 0%nat
  /\ waits (world (snd (Do Background "GET" [VString "k"]
                          (Sim.machine Sim.stalled)))) = 0%nat.
Proof.
  apply (proj2 (proj2 (proj2 (proj2 (proj2
    (@Do_borrows_runs_releases Sim.backend
       Background "GET" [VString "k"] (Sim.machine Sim.stalled)
       eq_refl))))))
    with (rem := Sim.stalled) (rem' := Sim.stalled);
    reflexivity.
Defined.

Lemma accessors_return_stored_error_witness :
  Reply.access Reply.AInt
    {| Reply.result := VBytes (list_byte_of_string "42");
       Reply.error := Some ErrorNil |}
  = ((Reply.DInt 0, Some ErrorNil),
     {| Reply.result := VBytes (list_byte_of_string "42");
        Reply.error := Some ErrorNil |}).
Proof.
  apply (proj1 (accessors_return_stored_error_and_are_idempotent
                  (H := Sim.library)) Reply.AInt).
  reflexivity.
Defined.

Lemma Exists_after_Del_witness :
  Exists Background "k"
    (Sim.after [CSet Background "k" (VString "v"); CDel Background "k"]
       Sim.endpoint)
  = ((false, None),
     snd (Do Background "EXISTS" [VString "k"]
            (Sim.after [CSet Background "k" (VString "v");
                        CDel Background "k"] Sim.endpoint))).
Proof.
  refine (proj1 (proj2
    (@Exists_is_true_exactly_on_reply_1 Sim.backend Sim.library Background "k" 0
       (Sim.after [CSet Background "k" (VString "v"); CDel Background "k"]
          Sim.endpoint)
       (snd (Do Background "EXISTS" [VString "k"]
               (Sim.after [CSet Background "k" (VString "v");
                           CDel Background "k"] Sim.endpoint)))
       _ _)) eq_refl).
  - unfold in_range; lia.
  - vm_compute; reflexivity.
Defined.



Lemma SetStruct_marshal_failure_witness :
  SetStruct Background "k" VChan (Sim.machine Sim.endpoint)
  = ({| Reply.result := VNil;
        Reply.error := Some (JsonError "json: unsupported type: chan int") |},
     Sim.machine Sim.endpoint).
Proof.
  exact (proj1
    (@SetStruct_marshal_failure_issues_nothing Sim.backend Sim.library
       Background "k" 60 VChan []
       (JsonError "json: unsupported type: chan int")
       (Sim.machine Sim.endpoint) eq_refl)).
Defined.

Lemma client_fields_fixed_witness :
  self (snd (run [CSet Background "k" (VString "v"); CPing;
                  CSAdd Background "s" ["a"; "b"]]
               {| self := Sim.client;
                  world := snd (ConnectRedis Sim.config
                                  (Sim.fresh Sim.endpoint)) |}))
  = Sim.client.
Proof.
  refine (proj1 (proj2 (proj2 (proj2
    (@client_fields_fixed_after_ConnectRedis Sim.backend Sim.library
       Sim.config (Sim.fresh Sim.endpoint)
       (snd (ConnectRedis Sim.config (Sim.fresh Sim.endpoint)))
       Sim.client None _ _))))).
  vm_compute; reflexivity.
Defined.

(** C2. The health check of [ConnectRedis] looks at the error of the PING
    and not at its value: on an endpoint that answers PING with the status
    OK and no error, [ConnectRedis] returns the client and a nil error,
    while [Ping] on that very client reports the failed health check. *)
Theorem ConnectRedis_accepts_unexpected_health_check :
  let connected := ConnectRedis Sim.config (Sim.fresh Sim.impostor) in
  fst (answered Sim.client "PING" [] (Sim.fresh Sim.impostor))
  = (VString "OK", None)
  /\ fst connected = (Some Sim.client, None)
  /\ fst (Ping {| self := Sim.client; world := snd connected |})
     = Some (Errorf "Failed to connect to redis %s. Error: %s"
               [OpString "localhost:6379"; OpError None]).
Proof. repeat split. Qed.

(** * Further properties of the cache client *)

Section FurtherCacheProperties.
Context `{Backend} `{Library}.

Lemma Ping_run (m : Machine) :
  Ping m
  = (let '(reply, err) :=
       decode (fst (Do Background "PING" [] m)) Reply.String in
     if match err with Some _ => true | None => false end
        || negb (reply =? "PONG")%string
     then Some (Errorf ErrorFailedConnect
                  [OpString (connection (self m)); OpError err])
     else None,
     snd (Do Background "PING" [] m)).
Proof.
  unfold Ping. rewrite bind_run, bind_run. cbn [gets fst snd].
  rewrite Do_self.
  destruct (decode (fst (Do Background "PING" [] m)) Reply.String)
    as [reply err].
  destruct (_ || _); reflexivity.
Qed.

(** X1. [Ping] returns a nil error exactly when the Reply of the PING
    command decodes, through the String accessor, to PONG without error;
    otherwise its error is built from [ErrorFailedConnect] with the
    client's connection string and the error of the decoding (nil when
    the reply is merely another string). *)
Theorem Ping_nil_exactly_on_PONG (m : Machine) :
  let decoded := decode (fst (Do Background "PING" [] m)) Reply.String in
  (fst (Ping m) = None <-> decoded = ("PONG", None))
  /\ (decoded <> ("PONG", None) ->
      fst (Ping m)
      = Some (Errorf ErrorFailedConnect
                [OpString (connection (self m)); OpError (snd decoded)]))
  /\ snd (Ping m) = snd (Do Background "PING" [] m).
Proof.
  intros decoded. subst decoded. rewrite Ping_run. cbn [fst snd].
  destruct (decode (fst (Do Background "PING" [] m)) Reply.String)
    as [reply [e|]]; cbn [orb snd].
  - repeat split; try discriminate; reflexivity.
  - destruct (String.eqb_spec reply "PONG") as [->|Hne]; cbn [negb].
    + repeat split; try reflexivity. intros Hc. now elim Hc.
    + repeat split; try discriminate; try reflexivity.
      intros Hc. inversion Hc. contradiction.
Qed.

Lemma Exists_run (ctx : Context) (key : string) (m : Machine) :
  Exists ctx key m
  = (let '(reply, err) :=
       decode (fst (Do ctx "EXISTS" [VString key] m)) Reply.Int in
     match err with
     | Some _ => (false, Some (Errorf ErrorFailedConnect
                                 [OpString (connection (self m));
                                  OpError err]))
     | None => (reply =? 1, None)
     end,
     snd (Do ctx "EXISTS" [VString key] m)).
Proof.
  unfold Exists. rewrite bind_run, bind_run. cbn [gets fst snd].
  rewrite Do_self.
  destruct (decode (fst (Do ctx "EXISTS" [VString key] m)) Reply.Int)
    as [reply [e|]]; reflexivity.
Qed.

(** X2. [Exists] never reports true together with an error: when the
    EXISTS command or the decoding of its Reply as an integer fails, the
    boolean is false and the error is built from [ErrorFailedConnect] with
    the client's connection string and that failure as the cause. *)
Theorem Exists_error_comes_with_false (ctx : Context) (key : string)
    (m : Machine) (b : bool) (e : GoError) :
  fst (Exists ctx key m) = (b, Some e) ->
  b = false
  /\ exists cause,
       snd (decode (fst (Do ctx "EXISTS" [VString key] m)) Reply.Int)
       = Some cause
       /\ e = Errorf ErrorFailedConnect
                [OpString (connection (self m)); OpError (Some cause)].
Proof.
  rewrite Exists_run. cbn [fst].
  destruct (decode (fst (Do ctx "EXISTS" [VString key] m)) Reply.Int)
    as [reply [cause|]]; intros Hex; inversion Hex; subst.
  split; [reflexivity|]. now exists cause.
Qed.

(** X3. [SetWithExpire] and [SetNoExpire] send the same SET command as
    [Set] and return its Reply; after it [SetWithExpire] makes one EXPIRE
    exchange with the caller's expiry, whatever its sign, and [SetNoExpire]
    makes no further call. *)
Theorem SetWithExpire_and_SetNoExpire_exchanges (ctx : Context)
    (key : string) (expire : Z) (value : Value) (m : Machine) :
  let r := self m in
  let set := Do ctx "SET" [VString key; value] m in
  fst (SetWithExpire ctx key expire value m) = fst set
  /\ since m (snd (SetWithExpire ctx key expire value m))
       [EvGet (pool r); EvDo (timeout r) "SET" [VString key; value]; EvClose;
        EvGet (pool r); EvDo (timeout r) "EXPIRE" [VString key; VInt expire];
        EvClose]
  /\ SetNoExpire ctx key value m = set
  /\ since m (snd (SetNoExpire ctx key value m))
       [EvGet (pool r); EvDo (timeout r) "SET" [VString key; value]; EvClose].
Proof.
  intros r set. subst r set. unfold SetWithExpire, SetNoExpire.
  split; [now rewrite then_Expire_run|].
  split; [apply then_Expire_since|].
  split; [reflexivity|apply Do_since].
Qed.

(** X4. The three entry points that set a hash send HMSET with the name
    followed by the flattened fields of the object.  [HSet] follows it with
    EXPIRE 900 and [HSetWithExpire] with EXPIRE of the caller's expiry on
    the same name; [HSetNoExpire] makes the HMSET exchange alone.  Each
    returns the Reply of the HMSET. *)
Theorem HSet_family_exchanges (ctx : Context) (name : string) (expire : Z)
    (obj : Value) (m : Machine) :
  let r := self m in
  let args := VString name :: flatten obj in
  let hmset := [EvGet (pool r); EvDo (timeout r) "HMSET" args; EvClose] in
  let reply := fst (Do ctx "HMSET" args m) in
  since m (snd (HSet ctx name obj m))
    (hmset ++ [EvGet (pool r);
               EvDo (timeout r) "EXPIRE" [VString name; VInt 900];
               EvClose])%list
  /\ since m (snd (HSetWithExpire ctx name expire obj m))
       (hmset ++ [EvGet (pool r);
                  EvDo (timeout r) "EXPIRE" [VString name; VInt expire];
                  EvClose])%list
  /\ since m (snd (HSetNoExpire ctx name obj m)) hmset
  /\ fst (HSet ctx name obj m) = reply
  /\ fst (HSetWithExpire ctx name expire obj m) = reply
  /\ fst (HSetNoExpire ctx name obj m) = reply.
Proof.
  intros r args hmset reply. subst r args hmset reply.
  unfold HSet, HSetWithExpire, HSetNoExpire, redis.AddFlat, redis.Add.
  change (15 * 60) with 900. cbn [app].
  split; [apply then_Expire_since|].
  split; [apply then_Expire_since|].
  split; [apply Do_since|].
  now rewrite !then_Expire_run.
Qed.

(** X5. When the value serializes to the bytes [b], [SetStructWithExpire]
    sends SET with [b] as the value and then EXPIRE with the caller's
    expiry, and [SetStructNoExpire] sends that SET alone; each returns the
    Reply of the SET. *)
Theorem SetStruct_variants_send_marshalled_bytes (ctx : Context)
    (key : string) (expire : Z) (value : Value) (b : list byte) (m : Machine) :
  json_Marshal value = (b, None) ->
  let r := self m in
  let set := Do ctx "SET" [VString key; VBytes b] m in
  fst (SetStructWithExpire ctx key expire value m) = fst set
  /\ since m (snd (SetStructWithExpire ctx key expire value m))
       [EvGet (pool r); EvDo (timeout r) "SET" [VString key; VBytes b];
        EvClose;
        EvGet (pool r); EvDo (timeout r) "EXPIRE" [VString key; VInt expire];
        EvClose]
  /\ SetStructNoExpire ctx key value m = set.
Proof.
  intros Hm r set. subst r set.
  unfold SetStructWithExpire, SetStructNoExpire. rewrite Hm.
  unfold SetWithExpire, SetNoExpire.
  split; [now rewrite then_Expire_run|].
  split; [apply then_Expire_since|reflexivity].
Qed.

End FurtherCacheProperties.

(** ** Connections and exchanges *)

Section ExchangeProperties.
Context `{Backend} `{Library}.

Lemma exchanges_app (r : Redis.t) (evs evs' : list Event) :
  exchanges r evs -> exchanges r evs' -> exchanges r (evs ++ evs')%list.
Proof.
  induction 1 as [|command args rest _ IH]; intros Hevs'; [assumption|].
  rewrite <- app_assoc. constructor. now apply IH.
Qed.

Lemma tidy_ret {A : Type} (a : A) : tidy (ret a).
Proof.
  intros m _. repeat split. exists []. split; [|constructor].
  unfold since. cbn [ret snd]. now rewrite app_nil_r.
Qed.

Lemma tidy_gets {A : Type} (f : Machine -> A) : tidy (gets f).
Proof.
  intros m _. repeat split. exists []. split; [|constructor].
  unfold since. cbn [gets snd]. now rewrite app_nil_r.
Qed.

(** The free slot found at the start is there again for the next step. *)
Lemma tidy_bind {A B : Type} (c : St Machine A) (k : A -> St Machine B) :
  tidy c -> (forall a, tidy (k a)) -> tidy (bind c k).
Proof.
  intros Hc Hk m Hfree. rewrite bind_run.
  destruct (Hc m Hfree) as (Hself & Hb & Hw & evs & Hev & Hex).
  assert (Hfree' : saturated (pool (self (snd (c m))))
                     (borrowed (world (snd (c m)))) = false)
    by now rewrite Hself, Hb.
  destruct (Hk (fst (c m)) (snd (c m)) Hfree')
    as (Hself' & Hb' & Hw' & evs' & Hev' & Hex').
  split; [congruence|]. split; [congruence|]. split; [congruence|].
  exists (evs ++ evs')%list. split.
  - eapply since_trans; eassumption.
  - apply exchanges_app; [assumption|]. now rewrite <- Hself.
Qed.

Lemma tidy_Do ctx command args : tidy (Do ctx command args).
Proof.
  intros m Hfree. split; [apply Do_self|]. split; [apply Do_borrowed|].
  split; [now rewrite Do_waits, Hfree, andb_false_r|].
  exists (exchange (self m) command args). split; [apply Do_since|].
  rewrite <- (app_nil_r (exchange _ _ _)). repeat constructor.
Qed.

Ltac tidy_step :=
  first
    [ apply tidy_ret
    | apply tidy_Do
    | apply tidy_gets
    | apply tidy_bind; [|intro]
    | match goal with
      | |- tidy (match ?x with _ => _ end) => destruct x
      end ].

Lemma invoke_tidy (c : Call) : tidy (invoke c).
Proof.
  destruct c; cbn [invoke]; unfold reply;
    unfold Ping, Exists, TTL, Expire, Incr, IncrBy, Decr, DecrBy, Get,
      SetStruct, SetStructWithExpire, SetStructNoExpire,
      Set_, SetWithExpire, SetNoExpire, Del,
      SAdd, SAddWithExpire, SAddNoExpire, SRem, SIsMember, SMembers, SCard,
      HSet, HSetWithExpire, HSetNoExpire, HGet, HGetAll, HDel,
      ZAdd, ZRem, ZRange, ZInterStore, Expire;
    repeat tidy_step.
Qed.

(** X6. When the pool has a free slot, then whatever sequence of
    operations a caller runs on the client, no Get of the sequence has to
    wait for a slot, the number of connections borrowed from the pool is
    afterwards what it was before, and the calls made on the pool form
    complete exchanges: every connection taken with Get runs exactly one
    command and is closed before the next one is taken. *)
Theorem operations_return_every_connection (calls : list Call) (m : Machine) :
  saturated (pool (self m)) (borrowed (world m)) = false ->
  borrowed (world (snd (run calls m))) = borrowed (world m)
  /\ waits (world (snd (run calls m))) = waits (world m)
  /\ exists evs,
       since m (snd (run calls m)) evs /\ exchanges (self m) evs.
Proof.
  intros Hfree.
  assert (Ht : tidy (run calls)).
  { induction calls as [|c calls IH]; cbn [run].
    - apply tidy_ret.
    - apply tidy_bind; [apply invoke_tidy|intro].
      apply tidy_bind; [exact IH|intro]. apply tidy_ret. }
  destruct (Ht m Hfree) as (_ & Hb & Hw & Hev). now repeat split.
Qed.

Lemma reply_run (c : St Machine Reply.t) (m : Machine) :
  reply c m = (OutReply (fst (c m)), snd (c m)).
Proof. unfold reply. now rewrite bind_run. Qed.

Lemma since_nil (m : Machine) : since m m [].
Proof. unfold since. now rewrite app_nil_r. Qed.

Lemma Ping_outcome_world (m : Machine) :
  snd ((err <- Ping ;; ret (OutError err)) m)
  = snd (Do Background "PING" [] m).
Proof. now rewrite bind_run, Ping_run. Qed.

Lemma Exists_outcome_world (ctx : Context) (key : string) (m : Machine) :
  snd (('(b, err) <- Exists ctx key ;; ret (OutBool b err)) m)
  = snd (Do ctx "EXISTS" [VString key] m).
Proof.
  rewrite bind_run, Exists_run. cbn [fst snd].
  now destruct (decode _ Reply.Int) as [reply [e|]].
Qed.

Ltac shape_of_trace :=
  first
    [ left; reflexivity
    | right; left; do 2 eexists; reflexivity
    | right; right; do 4 eexists; reflexivity ].

Ltac trace_of_reply :=
  rewrite reply_run; cbn [snd];
  unfold SAdd, SAddWithExpire, SAddNoExpire, SRem,
    Set_, SetWithExpire, HSet, HSetWithExpire;
  first [ apply since_nil | apply Do_since | apply then_Expire_since ].

(** X7. No operation of the client makes more than two exchanges with the
    pool, and when it makes two the second is an EXPIRE command: the trace
    an operation leaves is empty (a structured store whose marshalling
    failed), one exchange, or one exchange followed by an EXPIRE. *)
Theorem operation_is_command_then_maybe_EXPIRE (c : Call) (m : Machine) :
  exists evs,
    since m (snd (invoke c m)) evs
    /\ at_most_command_and_expire (self m) evs.
Proof.
  unfold at_most_command_and_expire.
  destruct c; cbn [invoke];
    try solve [ eexists; split; [trace_of_reply|shape_of_trace] ].
  - eexists. split; [rewrite Ping_outcome_world; apply Do_since|].
    shape_of_trace.
  - eexists. split; [rewrite Exists_outcome_world; apply Do_since|].
    shape_of_trace.
  - unfold SetStruct. destruct (json_Marshal value) as [b [e|]];
      eexists; (split; [trace_of_reply|shape_of_trace]).
  - unfold SetStructWithExpire. destruct (json_Marshal value) as [b [e|]];
      eexists; (split; [trace_of_reply|shape_of_trace]).
  - unfold SetStructNoExpire. destruct (json_Marshal value) as [b [e|]];
      eexists; (split; [trace_of_reply|shape_of_trace]).
Qed.

(** X8. No operation looks at its context: under any other context, a
    deadline or a cancelled one included, every operation returns the same
    result and leaves the same machine. *)
Theorem operations_ignore_context (ctx : Context) (c : Call) (m : Machine) :
  invoke (with_context ctx c) m = invoke c m.
Proof. destruct c; reflexivity. Qed.

(** X9. If the pool cannot supply a live connection, the operation's Reply
    holds a nil result and the error of the dial, the endpoint is not
    asked, and every typed accessor of that Reply returns the dial's
    error. *)
Theorem refused_dial_reaches_every_accessor (ctx : Context) (command : string)
    (args : list Value) (m : Machine) (e : GoError) (rem : Remote) :
  acquire (pool (self m)) (remote (world m)) = (Some e, rem) ->
  let rp := fst (Do ctx command args m) in
  rp = {| Reply.result := VNil; Reply.error := Some e |}
  /\ remote (world (snd (Do ctx command args m))) = rem
  /\ forall a : Reply.Accessor,
       fst (Reply.access a rp) = (Reply.untouched a, Some e).
Proof.
  intros Hacq rp. subst rp. rewrite Do_run. cbn [fst snd world remote].
  rewrite (answered_refused _ _ _ _ Hacq). cbn [fst snd].
  split; [reflexivity|]. split.
  - unfold answered, pool_Get, awaitSlot, conn_DoWithTimeout, record.
    unfold bind, modify. cbn.
    destruct (Wait _ && saturated _ _); cbn; now rewrite Hacq.
  - intros a. apply access_stored_error.
Qed.

End ExchangeProperties.

(** ** More on [ConnectRedis] *)

Section FurtherConnectProperties.
Context `{Backend} `{Library}.

(** X10. [ConnectRedis] never uses the password of the configuration: it
    returns the same client or error and leaves the same world under any
    other password, and the only command it sends is PING. *)
Theorem ConnectRedis_ignores_password (config : RedisConfig.t)
    (password : string) (w : World) :
  ConnectRedis (with_password config password) w = ConnectRedis config w
  /\ events (snd (ConnectRedis config w))
     = (events w ++ [EvGet (pool (constructed config));
                     EvDo (timeout (constructed config)) "PING" []])%list.
Proof. split; [reflexivity|apply ConnectRedis_events]. Qed.

Lemma answered_borrows (r : Redis.t) (command : string) (args : list Value)
    (w : World) (rem : Remote) :
  acquire (pool r) (remote w) = (None, rem) ->
  borrowed (snd (answered r command args w)) = S (borrowed w).
Proof.
  intros Hacq. unfold answered.
  unfold pool_Get, awaitSlot, conn_DoWithTimeout, record, bind, modify. cbn.
  destruct (Wait _ && saturated _ _); cbn; rewrite Hacq; cbn;
    now destruct (roundTrip _ _ _ rem) as [out rem'].
Qed.

(** X11. [ConnectRedis] does not close the connection it takes for the
    health check: it makes a Get and a DoWithTimeout and no Close, and when
    the pool hands out a live connection the number of borrowed connections
    is one higher afterwards, whether the PING succeeds or not. *)
Theorem ConnectRedis_keeps_health_check_connection (config : RedisConfig.t)
    (w : World) (rem : Remote) :
  acquire (pool (constructed config)) (remote w) = (None, rem) ->
  borrowed (snd (ConnectRedis config w)) = S (borrowed w)
  /\ ~ In EvClose (skipn (List.length (events w))
                     (events (snd (ConnectRedis config w)))).
Proof.
  intros Hacq. split.
  - rewrite ConnectRedis_run. cbn [snd]. now apply answered_borrows with rem.
  - rewrite ConnectRedis_events, skipn_app, skipn_all, Nat.sub_diag.
    cbn. intros [Hc|[Hc|[]]]; discriminate.
Qed.

(** X12. [ConnectRedis] returns a client exactly when the PING on the
    connection it takes comes back without error, and that client holds the
    configured endpoint, the timeout and the pool; when the dial or the
    PING fails with [e] it returns no client and the error built from
    [ErrorFailedConnect] with the endpoint and [e]. *)
Theorem ConnectRedis_client_iff_PING_without_error (config : RedisConfig.t)
    (w : World) :
  let err := snd (fst (answered (constructed config) "PING" [] w)) in
  (err = None <->
   fst (ConnectRedis config w) = (Some (constructed config), None))
  /\ (forall e, err = Some e <->
        fst (ConnectRedis config w)
        = (None, Some (Errorf ErrorFailedConnect
                         [OpString (RedisConfig.Connection config);
                          OpError (Some e)]))).
Proof.
  intros err. subst err. rewrite ConnectRedis_run. cbn [fst].
  destruct (snd (fst (answered _ _ _ w))) as [e0|]; split.
  - split; discriminate.
  - intros e. split; intros He; inversion He; reflexivity.
  - split; reflexivity.
  - intros e. split; discriminate.
Qed.

Lemma wrap_is_in_range (bits z : Z) : 0 < bits -> in_range bits (wrap bits z).
Proof.
  unfold wrap, in_range. intros Hbits.
  assert (Hp : 0 < 2 ^ (bits - 1)) by (apply Z.pow_pos_nonneg; lia).
  assert (H2 : 2 ^ bits = 2 * 2 ^ (bits - 1)).
  { rewrite <- Z.pow_succ_r by lia. f_equal. lia. }
  pose proof (Z.mod_pos_bound (z + 2 ^ (bits - 1)) (2 ^ bits)) as Hm.
  lia.
Qed.

(** X13. The client's timeout is the configured number of seconds in
    nanoseconds exactly when that product fits 64 bits, that is for a
    configured [Timeout] between -9223372036 and 9223372036; beyond, the
    multiplication wraps around and the timeout is another duration. *)
Theorem timeout_exact_iff_no_overflow (config : RedisConfig.t) :
  in_range 64 (RedisConfig.Timeout config) ->
  (timeout (constructed config) = RedisConfig.Timeout config * Second
   <-> -9223372036 <= RedisConfig.Timeout config <= 9223372036)
  /\ IdleTimeout (pool (constructed config)) = timeout (constructed config)
  /\ DialConnectTimeout (Dial (pool (constructed config)))
     = timeout (constructed config).
Proof.
  intros Hin. split; [|split; reflexivity].
  unfold constructed. cbn [timeout].
  rewrite (wrap_in_range (z := RedisConfig.Timeout config)) by (lia || exact Hin).
  unfold Second. split.
  - intros Heq.
    assert (Hr : in_range 64
                   (wrap 64 (RedisConfig.Timeout config * 1000000000)))
      by (apply wrap_is_in_range; lia).
    rewrite Heq in Hr. unfold in_range in Hr. lia.
  - intros Hb. apply wrap_in_range; [lia|]. unfold in_range. lia.
Qed.

(** X29. In a world where no connection is out, a client that
    [ConnectRedis] builds with [MaxActive] 1 cannot run a command: the
    connection of the health check, which [ConnectRedis] never closes,
    holds the only slot of the pool, the pool is built to wait, and so the
    Get of every [Do] on that client has to wait for a slot. *)
Theorem single_slot_client_has_to_wait (config : RedisConfig.t)
    (w w' : World) (r : Redis.t) (ctx : Context) (command : string)
    (args : list Value) :
  RedisConfig.MaxActive config = 1 ->
  borrowed w = 0%nat ->
  ConnectRedis config w = ((Some r, None), w') ->
  let m := {| Redis.self := r; Redis.world := w' |} in
  borrowed w' = 1%nat
  /\ Wait (Redis.pool r) = true
  /\ saturated (Redis.pool r) (borrowed w') = true
  /\ waits (Redis.world (snd (Redis.Do ctx command args m))) = S (waits w').
Proof.
  intros Hmax Hout Hc m. subst m. rewrite ConnectRedis_run in Hc.
  destruct (acquire (Redis.pool (constructed config)) (remote w))
    as [[e|] rem] eqn:Hacq.
  - pose proof (answered_refused (constructed config) "PING" [] w Hacq)
      as Hr.
    rewrite (surjective_pairing (fst (answered _ _ _ w))) in Hr.
    inversion Hr as [[Hv He]]. rewrite He in Hc. discriminate.
  - pose proof (answered_borrows (constructed config) "PING" [] w Hacq)
      as Hb.
    destruct (snd (fst (answered (constructed config) "PING" [] w)));
      [discriminate|].
    inversion Hc as [[Hr Hw']]. clear Hc.
    assert (Hone : borrowed (snd (answered (constructed config) "PING" [] w))
                   = 1%nat) by now rewrite Hb, Hout.
    assert (Hsat : saturated (Redis.pool (constructed config)) 1 = true).
    { unfold saturated, constructed. cbn [Redis.pool MaxActive].
      now rewrite Hmax. }
    split; [exact Hone|]. split; [reflexivity|].
    split; [now rewrite Hone|].
    apply Do_waits_without_slot; cbn [Redis.self Redis.world];
      [reflexivity|now rewrite Hone].
Qed.

End FurtherConnectProperties.

(** * Properties of the HTTP request client *)

Section CurlProperties.
Context `{HttpLib}.
Import curl.

Lemma SetHeader_run (key value : string) (m : curl.Machine) :
  SetHeader key value m
  = (tt,
     {| self :=
          {| method := method (self m); url := url (self m);
             headers := gomap.store key value (headers (self m));
             params := params (self m); files := files (self m);
             body := body (self m);
             multipart :=
               if names_content_type (key, value)
               then String.prefix "multipart" value
               else multipart (self m) |};
        world := world m |}).
Proof.
  unfold SetHeader, names_content_type, update. rewrite bind_run.
  cbn [modify fst snd self world method url headers params files body
       multipart].
  destruct (ToLower key =? "content-type")%string; cbn [andb].
  - destruct (String.prefix "multipart" value); reflexivity.
  - destruct m as [[] w]; reflexivity.
Qed.

Lemma isValidMethod_spec (s : string) :
  isValidMethod s = true
  <-> In s ["GET"; "HEAD"; "POST"; "PUT"; "PATCH"; "DELETE"].
Proof.
  unfold isValidMethod. rewrite existsb_exists. split.
  - intros (v & Hin & Heq). apply String.eqb_eq in Heq. now subst.
  - intros Hin. exists s. split; [exact Hin|apply String.eqb_refl].
Qed.

Lemma Do_run_unparsed (ctx : Context) (timeout : Z) (m : curl.Machine)
    (e : GoError) :
  url_Parse (url (self m)) = Failed e ->
  curl.Do ctx timeout m = ((None, Some e), m).
Proof.
  intros He. unfold curl.Do. rewrite bind_run. cbn [gets fst snd].
  now rewrite He.
Qed.

Lemma Do_run_invalid (ctx : Context) (timeout : Z) (m : curl.Machine)
    (u : URL) :
  url_Parse (url (self m)) = Ok u ->
  isValidMethod (method (self m)) = false ->
  curl.Do ctx timeout m = ((None, None), m).
Proof.
  intros Hu Hv. unfold curl.Do. rewrite bind_run. cbn [gets fst snd].
  now rewrite Hu, Hv.
Qed.

(** X14. [Do] gives up before any call when the URL of the request does
    not parse or its method is not one of GET, HEAD, POST, PUT, PATCH and
    DELETE in upper case: the request and the world are left as they were,
    no file is closed and nothing is handed to the client.  For the URL it
    returns the error of the parse; for the method it returns neither a
    response nor an error. *)
Theorem Do_gives_up_before_any_call (ctx : Context) (timeout : Z)
    (m : curl.Machine) :
  (forall e, url_Parse (url (self m)) = Failed e ->
             curl.Do ctx timeout m = ((None, Some e), m))
  /\ (forall u, url_Parse (url (self m)) = Ok u ->
                ~ In (method (self m))
                    ["GET"; "HEAD"; "POST"; "PUT"; "PATCH"; "DELETE"] ->
                curl.Do ctx timeout m = ((None, None), m)).
Proof.
  split.
  - intros e He. now apply Do_run_unparsed.
  - intros u Hu Hm. apply Do_run_invalid with u; [exact Hu|].
    destruct (isValidMethod (method (self m))) eqn:Hv; [|reflexivity].
    apply isValidMethod_spec in Hv. contradiction.
Qed.

Lemma setHeaders_app (calls calls' : list (string * string))
    (m : curl.Machine) :
  snd (setHeaders (calls ++ calls') m)
  = snd (setHeaders calls' (snd (setHeaders calls m))).
Proof.
  revert m. induction calls as [|[k v] calls IH]; intros m; [reflexivity|].
  cbn [app setHeaders]. rewrite !bind_run. apply IH.
Qed.

Lemma setHeaders_keeps_flag (calls : list (string * string))
    (m : curl.Machine) :
  forallb (fun c => negb (names_content_type c)) calls = true ->
  multipart (self (snd (setHeaders calls m))) = multipart (self m).
Proof.
  revert m. induction calls as [|[k v] calls IH]; intros m Hnone;
    [reflexivity|].
  cbn [forallb] in Hnone. apply andb_prop in Hnone as [Hk Hrest].
  cbn [setHeaders]. rewrite bind_run, IH by exact Hrest.
  rewrite SetHeader_run. cbn [snd self multipart].
  now destruct (names_content_type (k, v)).
Qed.

(** X15. The multipart flag of a request follows the last header set
    under a key that reads content-type when lower-cased: after any
    sequence of [SetHeader] calls the flag is true exactly when the value
    of that last call starts with multipart, and calls under other keys
    leave the flag alone.  The header itself is stored under the key as
    written. *)
Theorem multipart_flag_follows_last_content_type
    (before after : list (string * string)) (key value : string)
    (m : curl.Machine) :
  names_content_type (key, value) = true ->
  forallb (fun c => negb (names_content_type c)) after = true ->
  multipart (self (snd (setHeaders (before ++ (key, value) :: after) m)))
  = String.prefix "multipart" value
  /\ multipart (self (snd (setHeaders after m))) = multipart (self m)
  /\ gomap.lookup key
       (headers (self (snd (setHeaders (before ++ [(key, value)]) m))))
     = Some value.
Proof.
  intros Hkey Hafter. split; [|split].
  - rewrite setHeaders_app. cbn [setHeaders]. rewrite bind_run.
    rewrite setHeaders_keeps_flag by exact Hafter.
    rewrite SetHeader_run. cbn [snd self multipart]. now rewrite Hkey.
  - now apply setHeaders_keeps_flag.
  - rewrite setHeaders_app. cbn [setHeaders]. rewrite bind_run.
    rewrite SetHeader_run. cbn [snd ret self headers gomap.store gomap.lookup].
    now rewrite String.eqb_refl.
Qed.

Lemma Do_run_valid (ctx : Context) (timeout : Z) (m : curl.Machine) (u : URL) :
  url_Parse (url (self m)) = Ok u ->
  isValidMethod (method (self m)) = true ->
  curl.Do ctx timeout m
  = (built <-
       (if (method (self m) =? MethodGet)%string then setQueryParams u
        else setBodyParams u) ;;
     match built with
     | Failed err => ret (None, Some err)
     | Ok request =>
         rq <- gets self ;; deliver (dressed rq ctx timeout request)
     end) m.
Proof.
  intros Hu Hv. unfold curl.Do. rewrite bind_run. cbn [gets fst snd].
  rewrite Hu, Hv. reflexivity.
Qed.

Lemma deliver_run (request : Request) (rq : HttpRequest) (w : HttpWorld) :
  deliver request {| self := rq; world := w |}
  = (fst (deliver request {| self := rq; world := w |}),
     {| self := rq;
        world := world (snd (deliver request {| self := rq; world := w |}))
     |}).
Proof.
  unfold deliver, client_send, outside_step, bind, ret. cbn.
  destruct (client_Do request (outside w)) as [[response|e] o]; cbn;
    [|reflexivity].
  destruct (ReadAll response o) as [[c|e] o']; reflexivity.
Qed.

Lemma deliver_any_request (request : Request) (rq rq' : HttpRequest)
    (w : HttpWorld) :
  fst (deliver request {| self := rq'; world := w |})
  = fst (deliver request {| self := rq; world := w |})
  /\ world (snd (deliver request {| self := rq'; world := w |}))
     = world (snd (deliver request {| self := rq; world := w |})).
Proof.
  unfold deliver, client_send, outside_step, bind, ret. cbn.
  destruct (client_Do request (outside w)) as [[response|e] o]; cbn;
    [|split; reflexivity].
  destruct (ReadAll response o) as [[c|e] o']; split; reflexivity.
Qed.

Lemma deliver_world (request : Request) (m : curl.Machine) :
  closed (world (snd (deliver request m))) = closed (world m)
  /\ sent (world (snd (deliver request m)))
     = (sent (world m) ++ [request])%list.
Proof.
  unfold deliver, client_send, outside_step, bind, ret. cbn.
  destruct (client_Do request (outside (world m))) as [[response|e] o]; cbn;
    [|split; reflexivity].
  destruct (ReadAll response o) as [[c|e] o']; split; reflexivity.
Qed.

Lemma setQueryParams_run (u : URL) (m : curl.Machine) :
  setQueryParams u m
  = (http_NewRequest (method (self m))
       (URL_String
          (if negb (gomap.len (params (self m)) =? 0)%nat
           then URL_setRawQuery u
                  (Values_Encode
                     (fold_left
                        (fun query k =>
                           Values_Add query k (Values_Get (params (self m)) k))
                        (order (gomap.keys (params (self m))))
                        (URL_Query u)))
           else u)) None, m).
Proof. reflexivity. Qed.

(** X16. A GET request never touches the body or the files of the
    request: with any other body and files, [Do] returns the same response
    or error and leaves the same world; it closes no file, and the request
    it builds has no body. *)
Theorem GET_ignores_body_and_files (ctx : Context) (timeout : Z)
    (rq : HttpRequest) (w : HttpWorld) (b : list byte)
    (fs : gomap.t httpFile) :
  method rq = MethodGet ->
  let m := {| self := rq; world := w |} in
  let m' := {| self := with_payload rq b fs; world := w |} in
  fst (curl.Do ctx timeout m') = fst (curl.Do ctx timeout m)
  /\ world (snd (curl.Do ctx timeout m')) = world (snd (curl.Do ctx timeout m))
  /\ closed (world (snd (curl.Do ctx timeout m))) = closed w.
Proof.
  intros Hget m m'. subst m m'.
  destruct (url_Parse (url rq)) as [u|e] eqn:Hu.
  - assert (Hv : isValidMethod (method rq) = true) by now rewrite Hget.
    rewrite !(Do_run_valid ctx timeout _ (u := u)) by assumption.
    cbn [self with_payload method]. rewrite Hget, String.eqb_refl.
    rewrite !bind_run, !setQueryParams_run.
    cbn [fst snd self with_payload method params].
    destruct (http_NewRequest _ _ None) as [request|e]; cbn [ret fst snd world].
    + rewrite !bind_run. cbn [gets fst snd self with_payload headers].
      unfold dressed. cbn [headers with_payload].
      split; [apply deliver_any_request|].
      split; [apply deliver_any_request|].
      apply deliver_world.
    + repeat split.
  - rewrite (Do_run_unparsed ctx timeout {| self := rq; world := w |} Hu).
    rewrite (Do_run_unparsed ctx timeout
               {| self := with_payload rq b fs; world := w |} Hu).
    repeat split.
Qed.

Lemma setBodyParams_body (u : URL) (m : curl.Machine) :
  gomap.len (files (self m)) = 0%nat ->
  multipart (self m) = false ->
  body (self m) <> [] ->
  setBodyParams u m
  = (http_NewRequest (method (self m)) (URL_String u) (Some (body (self m))),
     m).
Proof.
  intros Hfiles Hmp Hbody. unfold setBodyParams.
  rewrite bind_run. cbn [gets fst snd]. rewrite Hfiles, Hmp. cbn [Nat.eqb negb orb].
  destruct (body (self m)) as [|b0 rest] eqn:Hb; [contradiction|].
  cbn [List.length Nat.eqb negb]. rewrite bind_run. cbn [ret fst snd].
  rewrite bind_run. reflexivity.
Qed.

(** X17. For a method other than GET, with no file attached and the
    multipart flag off, a body that is not empty is sent as it is and the
    parameters are not sent at all: with any other parameters [Do] returns
    the same response or error and leaves the same world, the request given
    to the client is built from exactly that body, and the request object
    is left as it was. *)
Theorem body_is_sent_and_params_are_dropped (ctx : Context) (timeout : Z)
    (rq : HttpRequest) (w : HttpWorld) (u : URL) (p : Values) :
  url_Parse (url rq) = Ok u ->
  isValidMethod (method rq) = true ->
  method rq <> MethodGet ->
  gomap.len (files rq) = 0%nat ->
  multipart rq = false ->
  body rq <> [] ->
  let m := {| self := rq; world := w |} in
  let m' := {| self := with_params rq p; world := w |} in
  fst (curl.Do ctx timeout m') = fst (curl.Do ctx timeout m)
  /\ world (snd (curl.Do ctx timeout m')) = world (snd (curl.Do ctx timeout m))
  /\ self (snd (curl.Do ctx timeout m)) = rq
  /\ (forall request,
        http_NewRequest (method rq) (URL_String u) (Some (body rq))
        = Ok request ->
        sent (world (snd (curl.Do ctx timeout m)))
        = (sent w ++ [dressed rq ctx timeout request])%list).
Proof.
  intros Hu Hv Hget Hfiles Hmp Hbody m m'. subst m m'.
  apply String.eqb_neq in Hget.
  rewrite !(Do_run_valid ctx timeout _ (u := u)) by assumption.
  cbn [self with_params method]. rewrite Hget.
  rewrite !bind_run, !setBodyParams_body by assumption.
  cbn [fst snd self with_params method body].
  destruct (http_NewRequest _ _ (Some (body rq))) as [request|e];
    cbn [ret fst snd world self].
  - rewrite !bind_run. cbn [gets fst snd self with_params headers].
    unfold dressed at 1 3. cbn [headers with_params]. fold (dressed rq ctx timeout request).
    split; [apply deliver_any_request|].
    split; [apply deliver_any_request|].
    split; [now rewrite deliver_run|].
    intros request' Heq. inversion Heq; subst request'. apply deliver_world.
  - repeat split. intros request' Heq. discriminate.
Qed.

Lemma setBodyParams_form (u : URL) (m : curl.Machine) :
  gomap.len (files (self m)) = 0%nat ->
  multipart (self m) = false ->
  body (self m) = [] ->
  setBodyParams u m
  = (http_NewRequest (method (self m)) (URL_String u)
       (Some (list_byte_of_string (Values_Encode (params (self m))))),
     snd (SetHeader "Content-Type" "application/x-www-form-urlencoded" m)).
Proof.
  intros Hfiles Hmp Hbody. unfold setBodyParams.
  rewrite bind_run. cbn [gets fst snd]. rewrite Hfiles, Hmp, Hbody.
  cbn [Nat.eqb negb orb List.length]. rewrite !bind_run.
  cbn [ret gets fst snd]. rewrite SetHeader_run. reflexivity.
Qed.

(** X18. For a method other than GET, with no file attached, the
    multipart flag off and an empty body, [Do] sends the encoded parameters
    as the body and writes the header Content-Type with the value
    application/x-www-form-urlencoded into the request object itself, over
    any value the caller stored under that key; the multipart flag stays
    off. *)
Theorem params_go_as_urlencoded_form (ctx : Context) (timeout : Z)
    (rq : HttpRequest) (w : HttpWorld) (u : URL) (request : Request) :
  url_Parse (url rq) = Ok u ->
  isValidMethod (method rq) = true ->
  method rq <> MethodGet ->
  gomap.len (files rq) = 0%nat ->
  multipart rq = false ->
  body rq = [] ->
  ToLower "Content-Type" = "content-type" ->
  http_NewRequest (method rq) (URL_String u)
    (Some (list_byte_of_string (Values_Encode (params rq)))) = Ok request ->
  let m' := snd (curl.Do ctx timeout {| self := rq; world := w |}) in
  gomap.lookup "Content-Type" (headers (self m'))
  = Some "application/x-www-form-urlencoded"
  /\ multipart (self m') = false
  /\ sent (world m') = (sent w ++ [dressed (self m') ctx timeout request])%list.
Proof.
  intros Hu Hv Hget Hfiles Hmp Hbody Hlower Hreq m'. subst m'.
  apply String.eqb_neq in Hget.
  rewrite (Do_run_valid ctx timeout _ (u := u)) by assumption.
  cbn [self]. rewrite Hget.
  rewrite bind_run, setBodyParams_form by assumption.
  cbn [fst snd self]. rewrite Hreq. rewrite SetHeader_run. cbn [snd].
  rewrite bind_run. cbn [gets fst snd self].
  rewrite deliver_run. cbn [snd self headers multipart world].
  unfold names_content_type. cbn [fst snd]. rewrite Hlower.
  cbn [gomap.lookup gomap.store].
  split; [reflexivity|]. split; [reflexivity|].
  match goal with
  | |- context [deliver ?r ?m] => exact (proj2 (deliver_world r m))
  end.
Qed.

Lemma runDeferred_run (deferred : list File) (m : curl.Machine) :
  runDeferred deferred m
  = (tt,
     {| self := self m;
        world :=
          {| outside :=
               fold_left (fun o f => File_Close f o) deferred
                 (outside (world m));
             closed := (closed (world m) ++ deferred)%list;
             sent := sent (world m) |} |}).
Proof.
  revert m. induction deferred as [|f rest IH]; intros m.
  - cbn. rewrite app_nil_r. now destruct m as [rq []].
  - cbn [runDeferred]. rewrite IH. cbn. now rewrite <- app_assoc.
Qed.

Lemma attached_cons (fs : gomap.t httpFile) (k : string) (ks : list string) :
  attached fs (k :: ks)
  = (match gomap.lookup k fs with
     | Some value => [fileContent value]
     | None => []
     end ++ attached fs ks)%list.
Proof. reflexivity. Qed.

Lemma outside_step_keeps {A : Type} (f : Outside -> A * Outside)
    (m : curl.Machine) :
  self (snd (outside_step f m)) = self m
  /\ closed (world (snd (outside_step f m))) = closed (world m)
  /\ sent (world (snd (outside_step f m))) = sent (world m).
Proof.
  unfold outside_step. destruct (f (outside (world m))). repeat split.
Qed.

(** The first loop stops at the first file that cannot be written: the
    files before it were written, and every file up to and including it
    is registered for closing. *)
Lemma writeFiles_run (fs : gomap.t httpFile) (ks : list string) :
  forall (writer : Writer) (deferred : list File) (m : curl.Machine),
  exists visited rest,
    ks = (visited ++ rest)%list
    /\ snd (fst (writeFiles fs ks writer deferred m))
       = (rev (attached fs visited) ++ deferred)%list
    /\ (forall written,
          fst (fst (writeFiles fs ks writer deferred m)) = Ok written ->
          rest = [])
    /\ (forall err,
          fst (fst (writeFiles fs ks writer deferred m)) = Failed err ->
          exists init key,
            visited = (init ++ [key])%list
            /\ (exists written,
                  fst (fst (writeFiles fs init writer deferred m))
                  = Ok written)
            /\ fst (fst (writeFiles fs visited writer deferred m))
               = Failed err)
    /\ self (snd (writeFiles fs ks writer deferred m)) = self m
    /\ closed (world (snd (writeFiles fs ks writer deferred m)))
       = closed (world m)
    /\ sent (world (snd (writeFiles fs ks writer deferred m)))
       = sent (world m).
Proof.
  induction ks as [|key ks IH]; intros writer deferred m.
  - exists [], []. repeat split. intros err Hf. discriminate.
  - cbn [writeFiles]. destruct (gomap.lookup key fs) as [value|] eqn:Hk.
    + destruct (CreateFormFile writer key (fileName value)) as [fw|err]
        eqn:Hcreate.
      * rewrite bind_run.
        destruct (outside_step_keeps (copyFile fw (fileContent value)) m)
          as (Hs1 & Hc1 & Hn1).
        destruct (outside_step (copyFile fw (fileContent value)) m)
          as [[writer'|err] m1] eqn:Hcopy; cbn [fst snd] in *.
        -- destruct (IH writer' (fileContent value :: deferred) m1)
             as (visited & rest & Hks & Hdef & Hok & Hfail & Hself & Hcl
                 & Hsent).
           exists (key :: visited), rest. rewrite attached_cons, Hk.
           cbn [app rev]. rewrite <- app_assoc. cbn [app].
           split; [congruence|]. split; [exact Hdef|].
           split; [exact Hok|]. split; [|repeat split; congruence].
           intros err Hf. destruct (Hfail err Hf)
             as (init & last & Hv & [written Hinit] & Hlast).
           exists (key :: init), last. split; [now rewrite Hv|].
           cbn [writeFiles]. rewrite Hk, Hcreate, !bind_run, Hcopy.
           cbn [fst snd]. split; [now exists written|exact Hlast].
        -- exists [key], ks. rewrite attached_cons, Hk. cbn [app rev attached
             flat_map].
           split; [reflexivity|]. split; [reflexivity|].
           split; [intros written Hc; discriminate|].
           split; [|repeat split; assumption].
           intros err' Hf. exists [], key. split; [reflexivity|].
           split; [now exists writer|].
           cbn [app writeFiles]. rewrite Hk, Hcreate, bind_run, Hcopy.
           exact Hf.
      * exists [key], ks. rewrite attached_cons, Hk. cbn [app rev attached
          flat_map].
        split; [reflexivity|]. split; [reflexivity|].
        split; [intros written Hc; discriminate|].
        split; [|repeat split].
        intros err' Hf. exists [], key. split; [reflexivity|].
        split; [now exists writer|].
        cbn [app writeFiles]. rewrite Hk, Hcreate. exact Hf.
    + destruct (IH writer deferred m)
        as (visited & rest & Hks & Hdef & Hok & Hfail & Hself & Hcl & Hsent).
      exists (key :: visited), rest. rewrite attached_cons, Hk. cbn [app].
      split; [congruence|]. split; [exact Hdef|]. split; [exact Hok|].
      split; [|repeat split; congruence].
      intros err Hf. destruct (Hfail err Hf)
        as (init & last & Hv & [written Hinit] & Hlast).
      exists (key :: init), last. split; [now rewrite Hv|].
      cbn [writeFiles]. rewrite Hk. split; [now exists written|exact Hlast].
Qed.

(** X19. [setImageParams] closes exactly the files that its first loop
    has visited, the latest first, whether it succeeds or fails, and hands
    nothing to the client.  When the first loop gets through, every file
    of the request has been visited and is closed, also when a form field
    then fails; when a file cannot be written the function fails with that
    error, the files visited are those up to and including that file,
    the ones before it having been written, and the files after it are
    left open. *)
Theorem setImageParams_closes_the_files_it_visited (m : curl.Machine) :
  let fs := files (self m) in
  let loop := writeFiles fs (order (gomap.keys fs)) NewWriter [] m in
  exists visited rest,
    order (gomap.keys fs) = (visited ++ rest)%list
    /\ closed (world (snd (setImageParams m)))
       = (closed (world m) ++ rev (attached fs visited))%list
    /\ sent (world (snd (setImageParams m))) = sent (world m)
    /\ (forall form,
          fst (setImageParams m) = Ok form ->
          rest = [] /\ Permutation visited (gomap.keys fs))
    /\ (forall written, fst (fst loop) = Ok written -> rest = [])
    /\ (forall err,
          fst (fst loop) = Failed err ->
          fst (setImageParams m) = Failed err
          /\ exists init key,
               visited = (init ++ [key])%list
               /\ (exists written,
                     fst (fst (writeFiles fs init NewWriter [] m))
                     = Ok written)
               /\ fst (fst (writeFiles fs visited NewWriter [] m))
                  = Failed err).
Proof.
  intros fs loop. subst fs loop. unfold setImageParams.
  rewrite bind_run. cbn [gets fst snd]. rewrite bind_run.
  destruct (writeFiles_run (files (self m)) (order (gomap.keys (files (self m))))
              NewWriter [] m)
    as (visited & rest & Hks & Hdef & Hok & Hfail & Hself & Hcl & Hsent).
  rewrite app_nil_r in Hdef.
  destruct (writeFiles _ (order _) NewWriter [] m)
    as [[written deferred] m1].
  cbn [fst snd] in *. subst deferred.
  exists visited, rest. split; [exact Hks|].
  destruct written as [writer|err].
  - assert (Hrest : rest = []) by now apply (Hok writer).
    destruct (writeFields _ _ writer) as [writer'|err].
    + rewrite !bind_run, SetHeader_run. cbn [fst snd].
      rewrite runDeferred_run. cbn [ret fst snd world closed sent].
      rewrite Hcl, Hsent. repeat split; try assumption; try discriminate.
      rewrite Hrest, app_nil_r in Hks. rewrite <- Hks.
      apply order_visits_each_once.
    + rewrite bind_run, runDeferred_run. cbn [ret fst snd world closed sent].
      rewrite Hcl, Hsent. repeat split; try assumption; discriminate.
  - rewrite bind_run, runDeferred_run. cbn [ret fst snd world closed sent].
    rewrite Hcl, Hsent. split; [reflexivity|]. split; [reflexivity|].
    split; [discriminate|]. split; [discriminate|].
    intros err' Hf. split; [now inversion Hf|]. now apply Hfail.
Qed.

Lemma fold_left_same {A B : Type} (f g : A -> B -> A) (l : list B) :
  (forall a b, f a b = g a b) ->
  forall a, fold_left f l a = fold_left g l a.
Proof.
  intros Hfg. induction l as [|b l IH]; intros a; [reflexivity|].
  cbn [fold_left]. now rewrite Hfg, IH.
Qed.

Lemma keys_first_values (p : Values) :
  gomap.keys (first_values p) = gomap.keys p.
Proof.
  unfold gomap.keys, first_values. rewrite map_map. reflexivity.
Qed.

Lemma Get_first_values (p : Values) (k : string) :
  Values_Get (first_values p) k = Values_Get p k.
Proof.
  unfold Values_Get. induction p as [|[k' vs] p IH]; [reflexivity|].
  cbn [first_values map gomap.lookup fst snd].
  destruct (k =? k')%string; [|exact IH].
  now destruct vs as [|v vs].
Qed.

Lemma writeFields_first_values (p : Values) (ks : list string) :
  forall writer,
    writeFields (first_values p) ks writer = writeFields p ks writer.
Proof.
  induction ks as [|k ks IH]; intros writer; [reflexivity|].
  cbn [writeFields]. rewrite Get_first_values.
  destruct (CreateFormField writer k) as [fw|e]; [|reflexivity].
  destruct (copyString fw (Values_Get p k)) as [writer'|e]; [|reflexivity].
  apply IH.
Qed.

(** X20. Only the first value of each parameter reaches the query of a
    GET request or the fields of a multipart form: with every parameter cut
    down to its first value, a GET [Do] returns the same response or error
    and hands the same requests to the client, and the form fields written
    are the same. *)
Theorem only_first_values_reach_query_and_form (ctx : Context) (timeout : Z)
    (rq : HttpRequest) (w : HttpWorld) (ks : list string) (writer : Writer) :
  method rq = MethodGet ->
  let m := {| self := rq; world := w |} in
  let m' := {| self := with_params rq (first_values (params rq));
               world := w |} in
  fst (curl.Do ctx timeout m') = fst (curl.Do ctx timeout m)
  /\ world (snd (curl.Do ctx timeout m')) = world (snd (curl.Do ctx timeout m))
  /\ writeFields (first_values (params rq)) ks writer
     = writeFields (params rq) ks writer.
Proof.
  intros Hget m m'. subst m m'.
  split; [|split; [|apply writeFields_first_values]].
  all: destruct (url_Parse (url rq)) as [u|e] eqn:Hu;
    [ assert (Hv : isValidMethod (method rq) = true) by (now rewrite Hget);
      rewrite !(Do_run_valid ctx timeout _ (u := u)) by assumption;
      cbn [self with_params method]; rewrite Hget, String.eqb_refl;
      rewrite !bind_run, !setQueryParams_run;
      cbn [fst snd self with_params method params];
      unfold gomap.len; rewrite keys_first_values;
      rewrite (fold_left_same
                 (fun query k =>
                    Values_Add query k
                      (Values_Get (first_values (params rq)) k))
                 (fun query k =>
                    Values_Add query k (Values_Get (params rq) k)))
        by (intros; now rewrite Get_first_values);
      destruct (http_NewRequest _ _ None) as [request|e];
      cbn [ret fst snd world];
      [ rewrite !bind_run; cbn [gets fst snd self with_params headers];
        unfold dressed; cbn [headers with_params];
        apply deliver_any_request
      | reflexivity ]
    | rewrite (Do_run_unparsed ctx timeout {| self := rq; world := w |} Hu);
      rewrite (Do_run_unparsed ctx timeout
                 {| self := with_params rq (first_values (params rq));
                    world := w |} Hu);
      reflexivity ].
Qed.

End CurlProperties.

(** * Properties of the SQL client *)

Section DatabaseProperties.
Context `{SqlLib}.
Import database.

Lemma call_run (h : Handle) (a : Action) (w : DbWorld) :
  calls (snd (call h a w)) = (calls w ++ [(h, a)])%list.
Proof. unfold call. now destruct (serve h a (state w)). Qed.

Lemma call_eq (h : Handle) (a : Action) (w : DbWorld) :
  call h a w
  = (fst (serve h a (state w)),
     {| state := snd (serve h a (state w));
        calls := (calls w ++ [(h, a)])%list |}).
Proof. unfold call. now destruct (serve h a (state w)). Qed.

Lemma when_eq (b : bool) (h : Handle) (a : Action) (w : DbWorld) :
  when b (call h a) w
  = (tt,
     {| state := replay (if b then [(h, a)] else []) (state w);
        calls := (calls w ++ if b then [(h, a)] else [])%list |}).
Proof.
  unfold when. destruct b.
  - rewrite bind_run, call_eq. reflexivity.
  - cbn [ret replay fold_left]. rewrite app_nil_r. now destruct w.
Qed.

Lemma replay_app (cs cs' : list (Handle * Action)) (s : DBState) :
  replay (cs ++ cs') s = replay cs' (replay cs s).
Proof. unfold replay. apply fold_left_app. Qed.

(** X21. [Connect] returns no handle and the error when the connection
    cannot be opened, and then sets nothing.  Otherwise it passes to the
    driver exactly the limits that are positive, in the order open
    connections, idle connections, lifetime (the hours converted to a
    duration), then pings, and returns the handle together with the error
    of that ping, the one the driver gives in the state the limits left it
    in: the handle is there even when the ping failed, and the error is
    nil only when the ping succeeded. *)
Theorem Connect_returns_handle_with_ping_error (cfg : Config) (w : DbWorld) :
  (forall err s,
      sqlx_Connect (Driver cfg) (DSN cfg) (state w) = (Failed err, s) ->
      Connect cfg w = ((None, Some err), {| state := s; calls := calls w |}))
  /\ (forall db s,
        sqlx_Connect (Driver cfg) (DSN cfg) (state w) = (Ok db, s) ->
        let limits :=
          ((if 0 <? MaxOpenConns cfg
            then [(db, ASetMaxOpenConns (MaxOpenConns cfg))] else [])
           ++ (if 0 <? MaxIdleConns cfg
               then [(db, ASetMaxIdleConns (MaxIdleConns cfg))] else [])
           ++ (if 0 <? ConnMaxLifeTime cfg
               then [(db, ASetConnMaxLifetime
                            (wrap 64 (wrap 64 (ConnMaxLifeTime cfg)
                                      * (3600 * Second))))]
               else []))%list in
        let ping := serve db APing (replay limits s) in
        Connect cfg w
        = ((Some {| Database.connection := db |}, snd (fst ping)),
           {| state := snd ping;
              calls := (calls w ++ limits ++ [(db, APing)])%list |})).
Proof.
  split.
  - intros err s Hc. unfold Connect. rewrite bind_run. cbn [fst snd].
    now rewrite Hc.
  - intros db s Hc limits ping. unfold Connect. rewrite bind_run.
    cbn [fst snd]. rewrite Hc. cbn [fst snd].
    rewrite bind_run, when_eq. cbn [fst snd state calls].
    rewrite bind_run, when_eq. cbn [fst snd state calls].
    rewrite bind_run, when_eq. cbn [fst snd state calls].
    rewrite bind_run, call_eq. cbn [fst snd state calls].
    rewrite <- !replay_app, <- !app_assoc. unfold Hour.
    fold limits. fold ping.
    destruct ping as [[value pingErr] s']. cbn [fst snd ret].
    subst limits. now rewrite <- !app_assoc.
Qed.

(** X22. The operations of a named statement use their first argument
    alone: without any argument they return the error "Missing parameter
    for this action" and make no call on the statement, and with arguments
    they behave as with the first one only, the others being ignored. *)
Theorem NamedStatement_uses_first_argument_only (stmt : NamedStatement.t)
    (ctx : Context) (dest arg0 : Value) (rest : list Value) (w : DbWorld) :
  NamedStatement.Exec stmt ctx [] w = ((VNil, Some missingParameter), w)
  /\ NamedStatement.Get stmt ctx dest [] w
     = ((dest, Some missingParameter), w)
  /\ NamedStatement.Select stmt ctx dest [] w
     = ((dest, Some missingParameter), w)
  /\ NamedStatement.Exec stmt ctx (arg0 :: rest) w
     = NamedStatement.Exec stmt ctx [arg0] w
  /\ NamedStatement.Get stmt ctx dest (arg0 :: rest) w
     = NamedStatement.Get stmt ctx dest [arg0] w
  /\ NamedStatement.Select stmt ctx dest (arg0 :: rest) w
     = NamedStatement.Select stmt ctx dest [arg0] w
  /\ calls (snd (NamedStatement.Exec stmt ctx (arg0 :: rest) w))
     = (calls w
        ++ [(NamedStatement.statement stmt, AStmtExecContext ctx arg0)])%list.
Proof. repeat split. apply call_run. Qed.

(** X23. A named operation whose query does not convert never reaches the
    driver: on the connection and in a transaction, [NamedExec], [NamedGet]
    and [NamedSelect] return the error of the conversion, while
    [NamedQueryRowx] returns a nil row and drops the error. *)
Theorem named_operations_stop_at_failed_conversion (db : Database.t)
    (tx : DBTransaction.t) (ctx : Context) (dest : Value) (query : string)
    (arg : Value) (converted : string * list Value) (e : GoError)
    (w : DbWorld) :
  convertNamed query arg = (converted, Some e) ->
  Database.NamedExec db ctx query arg w = ((VNil, Some e), w)
  /\ Database.NamedGet db ctx dest query arg w = ((dest, Some e), w)
  /\ Database.NamedSelect db ctx dest query arg w = ((dest, Some e), w)
  /\ Database.NamedQueryRowx db ctx query arg w = (None, w)
  /\ DBTransaction.NamedExec tx ctx query arg w = ((VNil, Some e), w)
  /\ DBTransaction.NamedQueryRowx tx ctx query arg w = (None, w).
Proof.
  intros Hc.
  unfold Database.NamedExec, Database.NamedGet, Database.NamedSelect,
    Database.NamedQueryRowx, DBTransaction.NamedExec,
    DBTransaction.NamedQueryRowx.
  rewrite Hc. destruct converted as [q args]. repeat split.
Qed.

End DatabaseProperties.

(** * Properties of the logger *)

Lemma string_append_assoc (a b c : string) : (a ++ b) ++ c = a ++ (b ++ c).
Proof. induction a as [|x a IH]; cbn; [reflexivity|now rewrite IH]. Qed.

Section SplitJoin.
Variable sep : ascii.

Lemma Split_not_nil (s : string) : Split s sep <> [].
Proof.
  induction s as [|c s IH]; cbn [Split]; [discriminate|].
  destruct (Ascii.eqb c sep); [discriminate|].
  destruct (Split s sep); discriminate.
Qed.

Lemma Split_length (s : string) :
  List.length (Split s sep) = S (log.occurrences sep s).
Proof.
  induction s as [|c s IH]; cbn [Split log.occurrences]; [reflexivity|].
  destruct (Ascii.eqb c sep); cbn [List.length]; [now rewrite IH|].
  destruct (Split s sep) as [|piece pieces] eqn:Hs; [|exact IH].
  now elim (Split_not_nil s).
Qed.

Lemma concat_cons (x : string) (l : list string) :
  l <> [] ->
  String.concat (String sep "") (x :: l)
  = x ++ String sep (String.concat (String sep "") l).
Proof. destruct l; [contradiction|reflexivity]. Qed.

Lemma Join_Split (s : string) : Join (Split s sep) (String sep "") = s.
Proof.
  unfold Join. induction s as [|c s IH]; cbn [Split]; [reflexivity|].
  destruct (Ascii.eqb_spec c sep) as [->|Hne].
  - rewrite concat_cons by apply Split_not_nil. cbn. now rewrite IH.
  - destruct (Split s sep) as [|piece pieces] eqn:Hs.
    + now elim (Split_not_nil s).
    + destruct pieces as [|piece' pieces]; cbn in *; now rewrite IH.
Qed.

Lemma Split_pieces_clean (s : string) :
  Forall (fun piece => log.occurrences sep piece = O) (Split s sep).
Proof.
  induction s as [|c s IH]; cbn [Split].
  - now repeat constructor.
  - destruct (Ascii.eqb c sep) eqn:Hc.
    + now constructor.
    + destruct (Split s sep) as [|piece pieces]; [|inversion IH; subst];
        constructor; cbn [log.occurrences]; rewrite ?Hc; auto.
Qed.

Lemma Split_clean (s : string) :
  log.occurrences sep s = O -> Split s sep = [s].
Proof.
  induction s as [|c s IH]; cbn [Split log.occurrences]; [reflexivity|].
  destruct (Ascii.eqb c sep); [discriminate|].
  intros Hs. now rewrite (IH Hs).
Qed.

Lemma Split_append (x rest : string) :
  log.occurrences sep x = O ->
  Split (x ++ String sep rest) sep = x :: Split rest sep.
Proof.
  induction x as [|c x IH]; cbn [append Split log.occurrences].
  - now rewrite Ascii.eqb_refl.
  - destruct (Ascii.eqb c sep); [discriminate|].
    intros Hx. now rewrite (IH Hx).
Qed.

Lemma Split_Join (l : list string) :
  l <> [] ->
  Forall (fun piece => log.occurrences sep piece = O) l ->
  Split (Join l (String sep "")) sep = l.
Proof.
  unfold Join. induction l as [|x l IH]; [contradiction|].
  intros _ Hclean. inversion Hclean as [|? ? Hx Hl]; subst.
  destruct l as [|y l].
  - cbn. now apply Split_clean.
  - rewrite concat_cons by discriminate.
    rewrite Split_append by exact Hx. f_equal.
    apply IH; [discriminate|exact Hl].
Qed.

Lemma concat_app (l1 l2 : list string) :
  l1 <> [] -> l2 <> [] ->
  String.concat (String sep "") (l1 ++ l2)
  = String.concat (String sep "") l1
    ++ String sep (String.concat (String sep "") l2).
Proof.
  induction l1 as [|x l1 IH]; [contradiction|]. intros _ Hl2.
  destruct l1 as [|y l1].
  - cbn [app]. now rewrite concat_cons.
  - change ((x :: y :: l1) ++ l2)%list with (x :: ((y :: l1) ++ l2))%list.
    rewrite concat_cons by (cbn; discriminate).
    rewrite IH by (discriminate || assumption).
    rewrite (concat_cons x (l := y :: l1)) by discriminate.
    rewrite string_append_assoc. reflexivity.
Qed.

End SplitJoin.

Lemma skipn_four (A : Type) (l : list A) :
  (4 <= List.length l)%nat ->
  List.length (skipn (List.length l - 4) l) = 4%nat.
Proof. intros Hl. rewrite length_skipn. lia. Qed.

Lemma Forall_skipn_of (A : Type) (P : A -> Prop) (n : nat) (l : list A) :
  Forall P l -> Forall P (skipn n l).
Proof.
  intros Hl. rewrite <- (firstn_skipn n l) in Hl.
  now apply Forall_app in Hl.
Qed.

(** X24. [formatFilePath] panics exactly on a path with fewer than three
    slashes.  On any other path it returns the last four pieces joined by
    slashes: the result has exactly three slashes, it is the end of the
    path, cut either at the start or right after a slash, and formatting
    it again gives it back. *)
Theorem formatFilePath_keeps_the_last_four_pieces (f : string) :
  (log.formatFilePath f = None <-> (log.occurrences "/" f < 3)%nat)
  /\ (forall r,
        log.formatFilePath f = Some r ->
        log.occurrences "/" r = 3%nat
        /\ (f = r \/ exists before, f = (before ++ "/") ++ r)
        /\ log.formatFilePath r = Some r).
Proof.
  unfold log.formatFilePath.
  pose proof (Split_length "/" f) as Hlen.
  pose proof (Split_pieces_clean "/" f) as Hclean.
  pose proof (Join_Split "/" f) as Hjoin.
  set (paths := Split f "/") in *.
  destruct (Nat.ltb_spec (List.length paths) 4) as [Hlt|Hge].
  - split; [split; [lia|reflexivity]|discriminate].
  - split; [split; [discriminate|lia]|].
    intros r Hr. inversion Hr as [Hr']. clear Hr.
    set (last := skipn (List.length paths - 4) paths) in *.
    assert (Hlast : List.length last = 4%nat) by now apply skipn_four.
    assert (Hcl : Forall (fun piece => log.occurrences "/" piece = O) last)
      by now apply Forall_skipn_of.
    assert (Hne : last <> []) by (destruct last; [discriminate|discriminate]).
    assert (Hsplit : Split (Join last "/") "/" = last)
      by now apply Split_Join.
    split; [|split].
    + pose proof (Split_length "/" (Join last "/")) as Hl.
      rewrite Hsplit, Hlast in Hl. lia.
    + destruct (List.length paths - 4)%nat as [|k] eqn:Hk.
      * left. subst last. cbn [skipn]. now rewrite Hjoin.
      * right. exists (Join (firstn (S k) paths) "/").
        rewrite <- Hjoin at 1. unfold Join.
        rewrite <- (firstn_skipn (S k) paths) at 1.
        rewrite concat_app.
        -- now rewrite string_append_assoc.
        -- destruct paths; [cbn in Hge; lia|discriminate].
        -- exact Hne.
    + rewrite Hsplit, Hlast. cbn [Nat.ltb Nat.leb Nat.sub skipn].
      reflexivity.
Qed.

Section LoggerProperties.
Import log.

Lemma InitLogger_hooks (env : string) (conf : LogConfig)
    (ctxData : list string) (g : Global) :
  exists hook added,
    hooks (logger (snd (InitLogger env conf ctxData g)))
    = (hooks (logger g) ++ RotateFileHook hook :: added)%list
    /\ Filename hook = StdoutFile conf
    /\ (List.length added <= 1)%nat
    /\ Forall (fun h => Forall (fun p => p = StdoutFile conf) (paths_of h))
         added.
Proof.
  unfold InitLogger. cbn [modify snd logger hooks].
  destruct (StdoutFile conf =? "")%string, (StderrFile conf =? "")%string;
    cbn [negb List.length Nat.ltb Nat.leb];
    do 2 eexists;
    (split; [rewrite <- ?app_assoc; cbn [app]; reflexivity|]);
    cbn [Filename List.length paths_of map snd];
    repeat split; auto; repeat constructor.
Qed.

(** X25. [InitLogger] never hands the path given as [StderrFile] to a
    hook: the field only switches the info and error levels on, so any two
    non-empty values give the same logger, and every file path that
    [InitLogger] configures in the hooks it adds is [StdoutFile]. *)
Theorem InitLogger_never_uses_the_StderrFile_path (env : string)
    (conf : LogConfig) (ctxData : list string) (g : Global)
    (path path' : string) :
  path <> "" -> path' <> "" ->
  InitLogger env (with_StderrFile conf path) ctxData g
  = InitLogger env (with_StderrFile conf path') ctxData g
  /\ exists added,
       hooks (logger (snd (InitLogger env (with_StderrFile conf path)
                             ctxData g)))
       = (hooks (logger g) ++ added)%list
       /\ Forall (fun h => Forall (fun p => p = StdoutFile conf) (paths_of h))
            added.
Proof.
  intros Hp Hp'. split.
  - unfold InitLogger, with_StderrFile. cbn [StdoutFile StderrFile Level].
    apply String.eqb_neq in Hp, Hp'. now rewrite Hp, Hp'.
  - destruct (InitLogger_hooks env (with_StderrFile conf path) ctxData g)
      as (hook & added & Hh & Hf & _ & Hall).
    exists (RotateFileHook hook :: added). split; [exact Hh|].
    constructor; [|exact Hall].
    cbn [paths_of]. constructor; [exact Hf|constructor].
Qed.

(** X26. [InitLogger] adds to the hooks of the logger and removes none:
    every call appends one rotating file hook and at most one more hook,
    so after [n] calls the hooks that were there are still the first ones
    and at least [n] hooks have been added to them. *)
Theorem InitLogger_hooks_accumulate (env : string) (conf : LogConfig)
    (ctxData : list string) (n : nat) (g : Global) :
  let g' := snd (times n (InitLogger env conf ctxData) g) in
  exists added,
    hooks (logger g') = (hooks (logger g) ++ added)%list
    /\ (n <= List.length added <= 2 * n)%nat.
Proof.
  cbv zeta. revert g. induction n as [|n IH]; intros g.
  - exists []. cbn. rewrite app_nil_r. split; [reflexivity|lia].
  - cbn [times]. rewrite bind_run.
    destruct (IH (snd (InitLogger env conf ctxData g)))
      as (added' & Hh' & Hlen').
    destruct (InitLogger_hooks env conf ctxData g)
      as (hook & added & Hh & _ & Hlen & _).
    exists (RotateFileHook hook :: added ++ added')%list.
    rewrite Hh', Hh, <- app_assoc. cbn [app]. split; [reflexivity|].
    cbn [List.length]. rewrite length_app. lia.
Qed.

Lemma length_replace (p : nat) (en : Entry) (h : list Entry) :
  List.length (replace p en h) = List.length h.
Proof.
  revert p. induction h as [|first rest IH]; intros p; [now destruct p|].
  destruct p; cbn; [reflexivity|now rewrite IH].
Qed.

Lemma nth_error_replace_same (p : nat) (en old : Entry) (h : list Entry) :
  nth_error h p = Some old -> nth_error (replace p en h) p = Some en.
Proof.
  revert p. induction h as [|first rest IH]; intros p Hp.
  - now destruct p.
  - destruct p; cbn in *; [reflexivity|now apply IH].
Qed.

Lemma nth_error_replace_other (p q : nat) (en : Entry) (h : list Entry) :
  q <> p -> nth_error (replace p en h) q = nth_error h q.
Proof.
  revert p q. induction h as [|first rest IH]; intros p q Hq.
  - now destruct p.
  - destruct p, q; cbn; try reflexivity; [contradiction|].
    apply IH. congruence.
Qed.

Lemma assign_run (p : nat) (f : Entry -> Entry) (g : Global) (e : Entry) :
  nth_error (heap g) p = Some e ->
  assign p f g
  = (tt, {| logger := logger g; globalContextData := globalContextData g;
            heap := replace p (f e) (heap g) |}).
Proof. intros Hp. unfold assign, modify. now rewrite Hp. Qed.

(** X27. The methods of an [Entry] change the entry behind the receiver
    and return the receiver itself: after [WithField] on an entry, that
    entry holds the new field for every holder of the pointer, no entry is
    allocated and the other entries are as they were.  The function
    [WithField] of the package allocates a new entry and leaves the
    existing ones alone. *)
Theorem Entry_WithField_changes_the_receiver (g : Global) (en : nat)
    (e : Entry) (key : string) (value : Value) :
  nth_error (heap g) en = Some e ->
  let g' := snd (Entry_WithField en key value g) in
  fst (Entry_WithField en key value g) = en
  /\ nth_error (heap g') en
     = Some {| entry := logrus.WithField (entry e) key value;
               contextData := contextData e |}
  /\ List.length (heap g') = List.length (heap g)
  /\ (forall q, q <> en -> nth_error (heap g') q = nth_error (heap g) q)
  /\ fst (WithField key value g) = List.length (heap g)
  /\ (forall q old,
        nth_error (heap g) q = Some old ->
        nth_error (heap (snd (WithField key value g))) q = Some old).
Proof.
  intros He g'. subst g'. unfold Entry_WithField.
  rewrite bind_run, (assign_run _ _ _ He). cbn [ret fst snd heap].
  split; [reflexivity|].
  split; [now apply nth_error_replace_same with e|].
  split; [apply length_replace|].
  split; [intros q Hq; now apply nth_error_replace_other|].
  unfold WithField, allocate. rewrite bind_run. cbn [get fst snd heap].
  split; [reflexivity|].
  intros q old Hq. rewrite nth_error_app1; [exact Hq|].
  apply nth_error_Some. congruence.
Qed.

Lemma lookup_after_context (ctx : Context) (key : string)
    (keys : list string) :
  forall data : logrus.Fields,
    gomap.lookup key
      (fold_left (fun entry v => getContextValue ctx v entry) keys data)
    = if existsb (String.eqb key) keys
      then match Context_Value ctx key with
           | Some value => Some value
           | None => gomap.lookup key data
           end
      else gomap.lookup key data.
Proof.
  induction keys as [|k keys IH]; intros data; [reflexivity|].
  cbn [fold_left existsb]. rewrite IH. unfold getContextValue.
  destruct (String.eqb_spec key k) as [->|Hne]; cbn [orb].
  - destruct (Context_Value ctx k) as [value|] eqn:Hv;
      destruct (existsb _ keys); try reflexivity.
    unfold logrus.WithField, gomap.store. cbn [gomap.lookup].
    now rewrite String.eqb_refl.
  - apply String.eqb_neq in Hne.
    destruct (Context_Value ctx k) as [value|];
      unfold logrus.WithField, gomap.store; cbn [gomap.lookup];
      rewrite ?Hne; reflexivity.
Qed.

(** X28. [WithContext] on an entry copies from the context exactly the
    keys the entry was created with: such a key that has a value in the
    context gets that value, the nearest one, and every other field of the
    entry, a key outside that list included, stays as it was even when the
    context holds a value for it. *)
Theorem Entry_WithContext_takes_the_configured_keys (g : Global) (en : nat)
    (e : Entry) (ctx : Context) (key : string) :
  nth_error (heap g) en = Some e ->
  let g' := snd (Entry_WithContext en ctx g) in
  exists fields,
    fields_at g' en = Some fields
    /\ gomap.lookup key fields
       = if existsb (String.eqb key) (contextData e)
         then match Context_Value ctx key with
              | Some value => Some value
              | None => gomap.lookup key (entry e)
              end
         else gomap.lookup key (entry e).
Proof.
  intros He g'. subst g'. unfold Entry_WithContext, fields_at.
  rewrite bind_run, (assign_run _ _ _ He). cbn [ret fst snd heap].
  rewrite (nth_error_replace_same _ _ _ He). cbn [option_map entry].
  eexists. split; [reflexivity|]. apply lookup_after_context.
Qed.

End LoggerProperties.

(** * Instances of the further theorems *)

Lemma operations_return_every_connection_witness :
  waits (world (snd (run [CSet Background "k" (VString "v");
                          CGet Background "k"; CPing]
                       (Sim.machine Sim.endpoint))))
  = waits (world (Sim.machine Sim.endpoint)).
Proof.
  refine (proj1 (proj2
    (@operations_return_every_connection Sim.backend Sim.library
       [CSet Background "k" (VString "v"); CGet Background "k"; CPing]
       (Sim.machine Sim.endpoint) _))).
  vm_compute; reflexivity.
Defined.

Lemma single_slot_client_has_to_wait_witness :
  waits
    (world
       (snd (Do Background "GET" [VString "k"]
               {| self := constructed
                            (Sim.with_MaxActive Sim.config 1);
                  world := snd (ConnectRedis
                                  (Sim.with_MaxActive Sim.config 1)
                                  (Sim.fresh Sim.endpoint)) |})))
  = S (waits (snd (ConnectRedis (Sim.with_MaxActive Sim.config 1)
                     (Sim.fresh Sim.endpoint)))).
Proof.
  refine (proj2 (proj2 (proj2
    (@single_slot_client_has_to_wait Sim.backend
       (Sim.with_MaxActive Sim.config 1)
       (Sim.fresh Sim.endpoint)
       (snd (ConnectRedis (Sim.with_MaxActive Sim.config 1)
               (Sim.fresh Sim.endpoint)))
       (constructed (Sim.with_MaxActive Sim.config 1))
       Background "GET" [VString "k"] _ _ _))));
    vm_compute; reflexivity.
Defined.

#[local] Existing Instance SimHttp.lib.
#[local] Existing Instance SimSql.lib.

Lemma Exists_error_comes_with_false_witness :
  false = false
  /\ exists cause,
       snd (decode (fst (Do Background "EXISTS" [VString "k"]
                           (Sim.machine Sim.unreachable))) Reply.Int)
       = Some cause
       /\ Errorf "Failed to connect to redis %s. Error: %s"
            [OpString "localhost:6379";
             OpError (Some (NetError "dial tcp: connection refused" false))]
          = Errorf ErrorFailedConnect
              [OpString (connection (self (Sim.machine Sim.unreachable)));
               OpError (Some cause)].
Proof.
  refine (@Exists_error_comes_with_false Sim.backend Sim.library
            Background "k" (Sim.machine Sim.unreachable) false
            (Errorf "Failed to connect to redis %s. Error: %s"
               [OpString "localhost:6379";
                OpError (Some (NetError "dial tcp: connection refused"
                                 false))]) _).
  vm_compute; reflexivity.
Defined.

Lemma SetStruct_variants_send_marshalled_bytes_witness :
  SetStructNoExpire Background "k" (VBool true) (Sim.machine Sim.endpoint)
  = Do Background "SET" [VString "k"; VBytes (list_byte_of_string "true")]
      (Sim.machine Sim.endpoint).
Proof.
  refine (proj2 (proj2
    (@SetStruct_variants_send_marshalled_bytes Sim.backend Sim.library
       Background "k" 60 (VBool true) (list_byte_of_string "true")
       (Sim.machine Sim.endpoint) _))).
  vm_compute; reflexivity.
Defined.

Lemma refused_dial_reaches_every_accessor_witness :
  fst (Do Background "GET" [VString "k"] (Sim.machine Sim.unreachable))
  = {| Reply.result := VNil;
       Reply.error :=
         Some (NetError "dial tcp: connection refused" false) |}.
Proof.
  refine (proj1
    (@refused_dial_reaches_every_accessor Sim.backend Sim.library
       Background "GET" [VString "k"] (Sim.machine Sim.unreachable)
       (NetError "dial tcp: connection refused" false) Sim.unreachable _)).
  vm_compute; reflexivity.
Defined.

Lemma ConnectRedis_keeps_health_check_connection_witness :
  borrowed (snd (ConnectRedis Sim.config (Sim.fresh Sim.endpoint)))
  = S (borrowed (Sim.fresh Sim.endpoint)).
Proof.
  refine (proj1
    (@ConnectRedis_keeps_health_check_connection Sim.backend
       Sim.config (Sim.fresh Sim.endpoint) Sim.endpoint _)).
  vm_compute; reflexivity.
Defined.

Lemma timeout_exact_iff_no_overflow_witness :
  IdleTimeout (pool (constructed Sim.config))
  = timeout (constructed Sim.config).
Proof.
  refine (proj1 (proj2 (@timeout_exact_iff_no_overflow Sim.config _))).
  unfold in_range. cbn. lia.
Defined.

Lemma multipart_flag_follows_last_content_type_witness :
  curl.multipart
    (curl.self
       (snd (setHeaders
               ([("Content-Type", "multipart/form-data")]
                ++ ("content-type", "application/json") :: [("Accept", "*")])
               (SimHttp.machine (curl.NewHttpRequest "post" "http://h")))))
  = String.prefix "multipart" "application/json".
Proof.
  refine (proj1
    (@multipart_flag_follows_last_content_type SimHttp.lib
       [("Content-Type", "multipart/form-data")] [("Accept", "*")]
       "content-type" "application/json"
       (SimHttp.machine (curl.NewHttpRequest "post" "http://h")) _ _));
    vm_compute; reflexivity.
Defined.

Lemma GET_ignores_body_and_files_witness :
  curl.closed
    (curl.world
       (snd (curl.Do Background 5
               (SimHttp.machine (curl.NewHttpRequest "get" "http://h")))))
  = curl.closed SimHttp.fresh.
Proof.
  refine (proj2 (proj2
    (@GET_ignores_body_and_files SimHttp.lib Background 5
       (curl.NewHttpRequest "get" "http://h") SimHttp.fresh [] [] _))).
  vm_compute; reflexivity.
Defined.

Lemma body_is_sent_and_params_are_dropped_witness :
  curl.self
    (snd (curl.Do Background 5
            (snd (curl.SetBody (list_byte_of_string "payload")
                    (SimHttp.machine
                       (curl.NewHttpRequest "post" "http://h"))))))
  = curl.self
      (snd (curl.SetBody (list_byte_of_string "payload")
              (SimHttp.machine (curl.NewHttpRequest "post" "http://h")))).
Proof.
  refine (proj1 (proj2 (proj2
    (@body_is_sent_and_params_are_dropped SimHttp.lib Background 5
       (curl.self
          (snd (curl.SetBody (list_byte_of_string "payload")
                  (SimHttp.machine
                     (curl.NewHttpRequest "post" "http://h")))))
       SimHttp.fresh "http://h" [] _ _ _ _ _ _)))).
  all: try (vm_compute; reflexivity).
  all: vm_compute; discriminate.
Defined.

Lemma params_go_as_urlencoded_form_witness :
  gomap.lookup "Content-Type"
    (curl.headers
       (curl.self
          (snd (curl.Do Background 5
                  (SimHttp.machine
                     (curl.NewHttpRequest "post" "http://h"))))))
  = Some "application/x-www-form-urlencoded".
Proof.
  refine (proj1
    (@params_go_as_urlencoded_form SimHttp.lib Background 5
       (curl.NewHttpRequest "post" "http://h") SimHttp.fresh "http://h"
       {| SimHttp.rmethod := "POST"; SimHttp.rurl := "http://h";
          SimHttp.rbody := Some []; SimHttp.rctx := Background;
          SimHttp.rheaders := [] |}
       _ _ _ _ _ _ _ _)).
  all: try (vm_compute; reflexivity).
  vm_compute; discriminate.
Defined.

Lemma only_first_values_reach_query_and_form_witness :
  curl.writeFields
    (first_values [("tag", ["a"; "b"])]) ["tag"] NewWriter
  = curl.writeFields [("tag", ["a"; "b"])] ["tag"] NewWriter.
Proof.
  refine (proj2 (proj2
    (@only_first_values_reach_query_and_form SimHttp.lib Background 5
       (with_params (curl.NewHttpRequest "get" "http://h")
          [("tag", ["a"; "b"])])
       SimHttp.fresh ["tag"] NewWriter _))).
  vm_compute; reflexivity.
Defined.

Lemma named_operations_stop_at_failed_conversion_witness :
  database.Database.NamedQueryRowx
    {| database.Database.connection := "db" |} Background
    "SELECT :id" (VInt 1) SimSql.fresh
  = (None, SimSql.fresh).
Proof.
  refine (proj1 (proj2 (proj2 (proj2
    (@named_operations_stop_at_failed_conversion SimSql.lib
       {| database.Database.connection := "db" |}
       {| database.DBTransaction.connection := "db";
          database.DBTransaction.transaction := "tx" |}
       Background VNil "SELECT :id" (VInt 1) ("SELECT :id", [])
       (Errorf "sqlx: unsupported argument" []) SimSql.fresh _))))).
  vm_compute; reflexivity.
Defined.

Lemma InitLogger_never_uses_the_StderrFile_path_witness :
  log.InitLogger "production"
    (log.with_StderrFile
       {| log.StdoutFile := "out.log"; log.StderrFile := "";
          log.Level := "info" |} "err.log") []
    {| log.logger := {| log.formatter := logrus.TextFormatter false "";
                        log.level := logrus.InfoLevel; log.hooks := [] |};
       log.globalContextData := []; log.heap := [] |}
  = log.InitLogger "production"
      (log.with_StderrFile
         {| log.StdoutFile := "out.log"; log.StderrFile := "";
            log.Level := "info" |} "other.log") []
      {| log.logger := {| log.formatter := logrus.TextFormatter false "";
                          log.level := logrus.InfoLevel; log.hooks := [] |};
         log.globalContextData := []; log.heap := [] |}.
Proof.
  refine (proj1
    (@InitLogger_never_uses_the_StderrFile_path "production"
       {| log.StdoutFile := "out.log"; log.StderrFile := "";
          log.Level := "info" |} []
       {| log.logger := {| log.formatter := logrus.TextFormatter false "";
                           log.level := logrus.InfoLevel; log.hooks := [] |};
          log.globalContextData := []; log.heap := [] |}
       "err.log" "other.log" _ _)); discriminate.
Defined.

Lemma Entry_WithField_changes_the_receiver_witness :
  fst (log.Entry_WithField 0 "user" (VString "ann")
         {| log.logger := {| log.formatter := logrus.TextFormatter false "";
                             log.level := logrus.InfoLevel; log.hooks := [] |};
            log.globalContextData := [];
            log.heap := [{| log.entry := []; log.contextData := [] |}] |})
  = 0%nat.
Proof.
  refine (proj1
    (@Entry_WithField_changes_the_receiver
       {| log.logger := {| log.formatter := logrus.TextFormatter false "";
                           log.level := logrus.InfoLevel; log.hooks := [] |};
          log.globalContextData := [];
          log.heap := [{| log.entry := []; log.contextData := [] |}] |}
       0%nat {| log.entry := []; log.contextData := [] |}
       "user" (VString "ann") eq_refl)).
Defined.

Lemma Entry_WithContext_takes_the_configured_keys_witness :
  exists fields,
    log.fields_at
      (snd (log.Entry_WithContext 0
              (WithValue (WithValue Background "trace" "t1") "user" "ann")
              {| log.logger :=
                   {| log.formatter := logrus.TextFormatter false "";
                      log.level := logrus.InfoLevel; log.hooks := [] |};
                 log.globalContextData := ["trace"];
                 log.heap := [{| log.entry := [];
                                 log.contextData := ["trace"] |}] |})) 0
    = Some fields
    /\ gomap.lookup "user" fields
       = if existsb (String.eqb "user") ["trace"]
         then match Context_Value
                      (WithValue (WithValue Background "trace" "t1")
                         "user" "ann") "user" with
              | Some value => Some value
              | None => gomap.lookup "user" []
              end
         else gomap.lookup "user" [].
Proof.
  exact (@Entry_WithContext_takes_the_configured_keys
           {| log.logger :=
                {| log.formatter := logrus.TextFormatter false "";
                   log.level := logrus.InfoLevel; log.hooks := [] |};
              log.globalContextData := ["trace"];
              log.heap := [{| log.entry := [];
                              log.contextData := ["trace"] |}] |}
           0%nat {| log.entry := []; log.contextData := ["trace"] |}
           (WithValue (WithValue Background "trace" "t1") "user" "ann")
           "user" eq_refl).
Defined.
